(** * A shallow embedding of [supersenseFeatureExtractor.py]

    The development follows the layout of the Python module: the prefix
    tree ([Trie]), the feature alphabet ([SequentialStringIndexer]), the
    sparse feature vector ([IndexedStringSet], [IndexedFeatureMap]), the
    sense lexicon with its loaders and the most-frequent-sense baseline, and
    the distance bucketing of the POS-neighbour feature template.

    Python dictionaries are finite maps ([gmap]), Python lists are lists,
    Python integers are [Z], and an exception is an explicit error value
    threaded through the [result] monad. *)

From Stdlib Require Import ZArith Ascii String.
From stdpp Require Import gmap strings list fin_maps pretty.

#[local] Set Warnings "-register-all".
#[local] Open Scope Z_scope.

(** ** Exceptions *)

Inductive PyError : Set :=
  | IndexError
  | KeyError
  | TypeError
  | AttributeError
  | ValueError
  | AssertionError
  | IOError.

(** The outcome of a call: a value, an exception, or [OutOfFuel] when a
    recursion or loop that is bounded by fuel in this model used it up (the
    termination results show that enough fuel always exists). *)
Inductive result (A : Type) : Type :=
  | Ok (a : A)
  | Raise (e : PyError)
  | OutOfFuel.
Arguments Ok {A} a.
Arguments Raise {A} e.
Arguments OutOfFuel {A}.

#[global] Instance result_ret : MRet result := fun A a => Ok a.
#[global] Instance result_bind : MBind result := fun A B f m =>
  match m with
  | Ok a => f a
  | Raise e => Raise e
  | OutOfFuel => OutOfFuel
  end.

(** [assert c] *)
Definition py_assert (c : bool) : result unit :=
  if c then Ok tt else Raise AssertionError.

(** ** class Trie *)

Module Trie.
Section Trie.
Context {K : Type} `{Countable K} {V : Type} `{EqDecision V}.

(** [_map]: from sequence items to embedded tries; [_vals]: from items
    ending a sequence to their values. *)
Inductive t : Type :=
  Node { _map : gmap K t; _vals : gmap K V }.

(** [Trie()] *)
Definition empty : t := Node ∅ ∅.

(** [__setitem__(self, seq, v)].  [seq[0]] raises [IndexError] on an empty
    sequence.  [setdefault(first, Trie())] returns the child stored under
    [first] or stores a fresh one; the child is then updated in place, so
    the parent sees the update. *)
Fixpoint __setitem__ (self : t) (seq : list K) (v : V) : result t :=
  match seq with
  | [] => Raise IndexError
  | first :: rest =>
      match rest with
      | _ :: _ =>
          child ← __setitem__ (default empty (_map self !! first)) rest v;
          Ok (Node (<[first := child]> (_map self)) (_vals self))
      | [] => Ok (Node (_map self) (<[first := v]> (_vals self)))
      end
  end.

(** [__contains__(self, seq)] *)
Fixpoint __contains__ (self : t) (seq : list K) : result bool :=
  match seq with
  | [] => Raise IndexError
  | first :: rest =>
      match rest with
      | _ :: _ =>
          match _map self !! first with
          | None => Ok false
          | Some child => __contains__ child rest
          end
      | [] => Ok (bool_decide (is_Some (_vals self !! first)))
      end
  end.

(** [get(self, seq, default=None)].  A stored value is [Some v]; Python's
    [None] is [None].  The recursive call does not pass [default] on. *)
Fixpoint get (self : t) (seq : list K) (default : option V)
  : result (option V) :=
  match seq with
  | [] => Raise IndexError
  | first :: rest =>
      match rest with
      | _ :: _ =>
          match _map self !! first with
          | None => Ok default
          | Some child => get child rest None
          end
      | [] =>
          match _vals self !! first with
          | Some v => Ok (Some v)
          | None => Ok default
          end
      end
  end.

(** [longest(self, seq, default=None)].  The result is [default] or a
    pair of a prefix and its value; [None] is Python's [None] and
    [Some (p, v)] a pair, so the test [longer==default] is equality of
    such values.  [longer[0]] on [None] is a [TypeError]. *)
Fixpoint longest (self : t) (seq : list K) (default : option (list K * V))
  : result (option (list K * V)) :=
  match seq with
  | [] => Raise IndexError
  | first :: rest =>
      longer ← match rest, _map self !! first with
               | _ :: _, Some child => longest child rest default
               | _, _ => Ok default
               end;
      if decide (longer = default) then
        match _vals self !! first with
        | Some v => Ok (Some ([first], v))
        | None => Ok default
        end
      else
        match longer with
        | Some (p, v) => Ok (Some (first :: p, v))
        | None => Raise TypeError
        end
  end.

(** The trie obtained from [self] by the assignments [self[k] = v] for
    the pairs of [kvs], in order. *)
Fixpoint setitems (self : t) (kvs : list (list K * V)) : result t :=
  match kvs with
  | [] => Ok self
  | (k, v) :: kvs' => self' ← __setitem__ self k v; setitems self' kvs'
  end.

(** The value last assigned to [k] by the assignments [kvs]. *)
Fixpoint assigned (kvs : list (list K * V)) (k : list K) : option V :=
  match kvs with
  | [] => None
  | (k', v) :: kvs' =>
      match assigned kvs' k with
      | Some w => Some w
      | None => if decide (k' = k) then Some v else None
      end
  end.

End Trie.
Arguments t K {_ _} V.
End Trie.

(** ** Python lists *)

(** [l[k]] on a list: a negative index counts from the end. *)
Definition py_index {A} (l : list A) (k : Z) : result A :=
  let n := Z.of_nat (length l) in
  let k' := if k <? 0 then k + n else k in
  if (0 <=? k') && (k' <? n) then
    match l !! Z.to_nat k' with
    | Some x => Ok x
    | None => Raise IndexError
    end
  else Raise IndexError.

(** ** class SequentialStringIndexer *)

(** A key handed to the indexer is an integer index ([isinstance(k,int)])
    or a symbol; what a lookup returns is an index, a symbol, or [None].
    A method that changes the indexer returns the changed indexer; when it
    raises, the caller keeps the indexer it had.  (The one exception that
    Python raises after a change is the [AttributeError] of the count
    update in [add], on an indexer that was frozen with a cutoff and then
    unfrozen; there the new symbol stays indexed.) *)
Inductive Key (Sym : Type) : Type :=
  | KInt (i : Z)
  | KSym (s : Sym).
Arguments KInt {Sym} i.
Arguments KSym {Sym} s.

Inductive Value (Sym : Type) : Type :=
  | VInt (i : Z)
  | VSym (s : Sym)
  | VNone.
Arguments VInt {Sym} i.
Arguments VSym {Sym} s.
Arguments VNone {Sym}.

#[global] Instance Value_eq_dec {Sym} `{EqDecision Sym} : EqDecision (Value Sym).
Proof. solve_decision. Defined.

#[global] Instance Value_countable {Sym} `{Countable Sym} : Countable (Value Sym).
Proof.
  refine (inj_countable'
    (λ v, match v with
          | VInt i => inl i
          | VSym s => inr (Some s)
          | VNone => inr None
          end)
    (λ x, match x with
          | inl i => VInt i
          | inr (Some s) => VSym s
          | inr None => VNone
          end) _).
  by intros [].
Defined.

(** [enumerate(l)] *)
Definition enumerate {A} (l : list A) : list (Z * A) :=
  imap (λ i x, (Z.of_nat i, x)) l.

Module SequentialStringIndexer.
Section SequentialStringIndexer.
Context {Sym : Type} `{Countable Sym}.

(** [_counts] exists only when a cutoff was given and until [freeze]
    deletes it; [_len] exists once [freeze] has run.  An attribute that
    does not exist is [None]. *)
Record t : Type := {
  _s2i : gmap Sym Z;
  _i2s : list Sym;
  _frozen : bool;
  _cutoff : option Z;
  _counts : option (gmap Z Z);
  _len : option Z
}.

(** [__init__(self, cutoff=None)] *)
Definition __init__ (cutoff : option Z) : t :=
  {| _s2i := ∅; _i2s := []; _frozen := false; _cutoff := cutoff;
     _counts := if cutoff is Some _ then Some ∅ else None;
     _len := None |}.

(** [self._counts[i]] for a [Counter]: a missing key counts 0 *)
Definition count (counts : gmap Z Z) (i : Z) : Z := default 0 (counts !! i).

(** [self._counts], or [AttributeError] *)
Definition counts_attr (self : t) : result (gmap Z Z) :=
  match _counts self with
  | Some c => Ok c
  | None => Raise AttributeError
  end.

(** [is_frozen(self)] *)
Definition is_frozen (self : t) : bool := _frozen self.

(** [__getitem__(self, k)] *)
Definition __getitem__ (self : t) (k : Key Sym) : result (Value Sym) :=
  match k with
  | KInt k => s ← py_index (_i2s self) k; Ok (VSym s)
  | KSym k =>
      match _s2i self !! k with
      | Some i => Ok (VInt i)
      | None => Raise KeyError
      end
  end.

(** [get(self, k, default=None)] *)
Definition get (self : t) (k : Key Sym) (default : Value Sym)
  : result (Value Sym) :=
  match k with
  | KInt k =>
      if k >=? Z.of_nat (length (_i2s self)) then Ok default
      else s ← py_index (_i2s self) k; Ok (VSym s)
  | KSym k =>
      match _s2i self !! k with
      | Some i => Ok (VInt i)
      | None => Ok default
      end
  end.

(** [__contains__(self, k)] *)
Definition __contains__ (self : t) (k : Key Sym) : result bool :=
  match k with
  | KInt k =>
      py_assert (k >? 0) ;;
      Ok (k <? Z.of_nat (length (_i2s self)))
  | KSym k => Ok (bool_decide (is_Some (_s2i self !! k)))
  end.

(** [setcount(self, k, n)] *)
Definition setcount (self : t) (k : Key Sym) (n : Z) : result t :=
  i ← match k with
      | KInt k => Ok k
      | KSym k =>
          match _s2i self !! k with
          | Some i => Ok i
          | None => Raise KeyError
          end
      end;
  counts ← counts_attr self;
  Ok {| _s2i := _s2i self; _i2s := _i2s self; _frozen := _frozen self;
        _cutoff := _cutoff self; _counts := Some (<[i := n]> counts);
        _len := _len self |}.

(** [[s for i,s in enumerate(self._i2s) if self._counts[i]>=self._cutoff]] *)
Definition above_cutoff (i2s : list Sym) (counts : gmap Z Z) (cutoff : Z)
  : list Sym :=
  (filter (λ '(i, _), cutoff ≤ count counts i) (enumerate i2s)).*2.

(** [{s: i for i,s in enumerate(self._i2s)}]: a later item overrides an
    earlier one with the same symbol *)
Definition index_of_strings (i2s : list Sym) : gmap Sym Z :=
  foldl (λ m '(i, s), <[s := i]> m) ∅ (enumerate i2s).

(** [freeze(self)] *)
Definition freeze (self : t) : result t :=
  self ← match _cutoff self with
         | Some cutoff =>
             counts ← counts_attr self;
             let i2s := above_cutoff (_i2s self) counts cutoff in
             Ok {| _s2i := index_of_strings i2s; _i2s := i2s;
                   _frozen := _frozen self; _cutoff := _cutoff self;
                   _counts := None; _len := _len self |}
         | None => Ok self
         end;
  Ok {| _s2i := _s2i self; _i2s := _i2s self; _frozen := true;
        _cutoff := _cutoff self; _counts := _counts self;
        _len := Some (Z.of_nat (length (_i2s self))) |}.

(** [unfreeze(self)] *)
Definition unfreeze (self : t) : t :=
  {| _s2i := _s2i self; _i2s := _i2s self; _frozen := false;
     _cutoff := _cutoff self; _counts := _counts self; _len := _len self |}.

(** [add(self, s)] for a symbol [s].  When [s] is not indexed and the
    indexer is frozen, [ValueError]; otherwise [i] is bound in each branch
    that the count update can follow. *)
Definition add (self : t) (s : Sym) : result t :=
  known ← __contains__ self (KSym s);
  let counting := negb (is_frozen self) && bool_decide (is_Some (_cutoff self)) in
  '(self, i) ←
     (if negb known then
        if is_frozen self then Raise ValueError
        else
          let i := Z.of_nat (length (_i2s self)) in
          Ok ({| _s2i := <[s := i]> (_s2i self); _i2s := _i2s self ++ [s];
                 _frozen := _frozen self; _cutoff := _cutoff self;
                 _counts := _counts self; _len := _len self |}, VInt i)
      else if counting then
        i ← __getitem__ self (KSym s); Ok (self, i)
      else Ok (self, VNone));
  if counting then
    counts ← counts_attr self;
    match i with
    | VInt i =>
        Ok {| _s2i := _s2i self; _i2s := _i2s self; _frozen := _frozen self;
              _cutoff := _cutoff self;
              _counts := Some (<[i := count counts i + 1]> counts);
              _len := _len self |}
    | _ => Raise TypeError
    end
  else Ok self.

(** [setdefault(self, k)] *)
Definition setdefault (self : t) (k : Sym) : result (t * Value Sym) :=
  self ← add self k;
  i ← __getitem__ self (KSym k);
  Ok (self, i).

(** [__len__(self)] *)
Definition __len__ (self : t) : result Z :=
  if is_frozen self then
    match _len self with
    | Some n => Ok n
    | None => Raise AttributeError
    end
  else Ok (Z.of_nat (length (_i2s self))).

(** The calls that change an indexer before it is frozen, and the
    indexer after a series of them. *)
Inductive call : Type :=
  | Add (s : Sym)
  | Setdefault (s : Sym)
  | Setcount (k : Key Sym) (n : Z).

Fixpoint calls (self : t) (cs : list call) : result t :=
  match cs with
  | [] => Ok self
  | c :: cs' =>
      self' ← match c with
              | Add s => add self s
              | Setdefault s => '(self', _) ← setdefault self s; Ok self'
              | Setcount k n => setcount self k n
              end;
      calls self' cs'
  end.

(** The indexer after [add] was called on the symbols of [ss] in order. *)
Fixpoint adds (self : t) (ss : list Sym) : result t :=
  match ss with
  | [] => Ok self
  | s :: ss' => self' ← add self s; adds self' ss'
  end.

End SequentialStringIndexer.
Arguments t Sym {_ _}.
End SequentialStringIndexer.

(** ** class IndexedStringSet *)

(** The set holds a reference to the indexer, which other sets share;
    each method therefore takes the indexer's state and returns it,
    updated, with its own. *)
Module IndexedStringSet.
Section IndexedStringSet.
Context {Sym : Type} `{Countable Sym}.

Record t : Type := { _indices : gset Z }.

(** [__init__(self, indexer)] *)
Definition __init__ : t := {| _indices := ∅ |}.

(** [add(self, k)] *)
Definition add (indexer : SequentialStringIndexer.t Sym) (self : t)
    (k : Key Sym) : result (SequentialStringIndexer.t Sym * t) :=
  match k with
  | KInt i =>
      known ← SequentialStringIndexer.__contains__ indexer k;
      py_assert known ;;
      Ok (indexer, {| _indices := {[i]} ∪ _indices self |})
  | KSym s =>
      '(indexer, v) ← SequentialStringIndexer.setdefault indexer s;
      match v with
      | VInt i => Ok (indexer, {| _indices := {[i]} ∪ _indices self |})
      | _ => Raise TypeError
      end
  end.

(** [setdefault(self, k)] *)
Definition setdefault (indexer : SequentialStringIndexer.t Sym) (self : t)
    (k : Key Sym) : result (SequentialStringIndexer.t Sym * t * Value Sym) :=
  '(indexer, self) ← add indexer self k;
  v ← SequentialStringIndexer.__getitem__ indexer k;
  Ok (indexer, self, v).

End IndexedStringSet.
End IndexedStringSet.

(** ** class IndexedFeatureMap *)

Module IndexedFeatureMap.
Section IndexedFeatureMap.
Context {Sym : Type} `{Countable Sym}.

(** [_set]: the active indices; [_map]: the values that were stored;
    [_default]: the value of an active index that [_map] lacks. *)
Record t : Type := {
  _set : IndexedStringSet.t;
  _map : gmap (Value Sym) Z;
  _default : Z
}.

(** [__init__(self, indexer, default=1)] *)
Definition __init__ (default : Z) : t :=
  {| _set := IndexedStringSet.__init__; _map := ∅; _default := default |}.

(** [__setitem__(self, k, v)]; [or] evaluates its second operand only
    when the indexer is frozen. *)
Definition __setitem__ (indexer : SequentialStringIndexer.t Sym) (self : t)
    (k : Key Sym) (v : Z) : result (SequentialStringIndexer.t Sym * t) :=
  allowed ← (if negb (SequentialStringIndexer.is_frozen indexer) then Ok true
              else SequentialStringIndexer.__contains__ indexer k);
  if (allowed : bool) then
    '(indexer, set, i) ← IndexedStringSet.setdefault indexer (_set self) k;
    if bool_decide (v ≠ _default self) then
      Ok (indexer, {| _set := set; _map := <[i := v]> (_map self);
                      _default := _default self |})
    else
      Ok (indexer, {| _set := set; _map := _map self;
                      _default := _default self |})
  else Ok (indexer, self).

(** [items(self)]: the pairs that the generator yields, as a list *)
Definition items (self : t) : list (Z * Z) :=
  (λ i, (i, default (_default self) (_map self !! VInt i))) <$>
    elements (IndexedStringSet._indices (_set self)).

(** The state after the assignments [self[k] = v] for the pairs of
    [kvs], in order. *)
Fixpoint setitems (indexer : SequentialStringIndexer.t Sym) (self : t)
    (kvs : list (Key Sym * Z)) : result (SequentialStringIndexer.t Sym * t) :=
  match kvs with
  | [] => Ok (indexer, self)
  | (k, v) :: kvs' =>
      '(indexer, self) ← __setitem__ indexer self k v;
      setitems indexer self kvs'
  end.

End IndexedFeatureMap.
Arguments t Sym {_ _}.
End IndexedFeatureMap.

(** ** Python lists and strings *)

(** [l[:n]] on a list. *)
Definition py_slice_to {A} (l : list A) (n : Z) : list A :=
  if n <? 0 then take (Z.to_nat (Z.of_nat (length l) + n)) l
  else take (Z.to_nat n) l.

(** [range(start, stop, step)] for a positive [step]. *)
Definition py_range (start stop step : Z) : list Z :=
  (λ k : nat, start + Z.of_nat k * step) <$>
    seq 0 (Z.to_nat ((stop - start + step - 1) / step)).

(** [s[0]] on a string: the one-character string, or [IndexError]. *)
Definition str_first (s : string) : result string :=
  match s with
  | EmptyString => Raise IndexError
  | String c _ => Ok (String c EmptyString)
  end.

(** [s[:-1]] *)
Fixpoint str_drop_last (s : string) : string :=
  match s with
  | EmptyString => EmptyString
  | String c s' =>
      match s' with
      | EmptyString => EmptyString
      | String _ _ => String c (str_drop_last s')
      end
  end.

(** A string cut at every character that satisfies [sep]; [n] separators
    give [n + 1] pieces, as [s.split(c)] and [re.split] do. *)
Fixpoint split_on (sep : ascii → bool) (s : string) : list string :=
  match s with
  | EmptyString => [EmptyString]
  | String c s' =>
      if sep c then EmptyString :: split_on sep s'
      else match split_on sep s' with
           | [] => [String c EmptyString]
           | w :: ws => String c w :: ws
           end
  end.

(** [s.split(c)] for a one-character separator *)
Definition str_split (c : ascii) (s : string) : list string :=
  split_on (Ascii.eqb c) s.

(** The class [\s] of [re]: space, tab, newline, vertical tab, form feed,
    carriage return. *)
Definition is_space (c : ascii) : bool :=
  bool_decide (nat_of_ascii c ∈ [32; 9; 10; 11; 12; 13]%nat).

(** [re.split(r'\s', ln)] *)
Definition re_split_space (ln : string) : list string := split_on is_space ln.

(** The sequence of the items of a string, each a one-character string. *)
Fixpoint str_items (s : string) : list string :=
  match s with
  | EmptyString => []
  | String c s' => String c EmptyString :: str_items s'
  end.

(** [s.indexOf(sub)]: Python's [str] has no attribute [indexOf] (the name
    is Java's); the attribute lookup raises [AttributeError]. *)
Definition str_indexOf (s sub : string) : result Z := Raise AttributeError.

(** [s[i:]] on a string *)
Definition str_slice_from (s : string) (i : Z) : string :=
  let n := Z.of_nat (String.length s) in
  let i' := if i <? 0 then Z.max 0 (i + n) else i in
  String.substring (Z.to_nat i') (String.length s - Z.to_nat i') s.

(** [int(s)] on a string of decimal digits with an optional sign;
    anything else is a [ValueError]. *)
Fixpoint digits_value (acc : Z) (s : string) : result Z :=
  match s with
  | EmptyString => Ok acc
  | String c s' =>
      let d := nat_of_ascii c in
      if bool_decide (48 ≤ d ≤ 57)%nat
      then digits_value (10 * acc + Z.of_nat (d - 48)) s'
      else Raise ValueError
  end.

Definition py_int (s : string) : result Z :=
  match s with
  | EmptyString => Raise ValueError
  | String "-" (String c s') => n ← digits_value 0 (String c s'); Ok (- n)
  | String "+" (String c s') => digits_value 0 (String c s')
  | _ => digits_value 0 s
  end.

(** ** Tokens and sentences (external) *)

Record Token : Type := {
  token : string;
  stem : string;
  pos : string;
  shape : string;
  gold : string;
  prediction : string
}.

(** ** The sense lexicon: module-level state *)

Record Globals : Type := {
  (** [senseTrie]: word1 -> {word2 -> ... -> {pos -> most frequent
      supersense}}; [None] until a loader creates it *)
  senseTrie : option (Trie.t string (gmap string string));
  (** [senseCountMap]: pos -> {word -> number of senses} *)
  senseCountMap : gmap string (gmap (list string) Z);
  (** [possibleSensesMap]: stem -> set of possible supersenses *)
  possibleSensesMap : gmap string (gset string)
}.

(** The state of a freshly imported module. *)
Definition initial_globals : Globals :=
  {| senseTrie := None; senseCountMap := ∅; possibleSensesMap := ∅ |}.

(** A computation that reads and writes the module-level state and may
    raise; what was written before an exception stays written. *)
Definition M (A : Type) : Type := Globals → result A * Globals.

#[global] Instance M_ret : MRet M := λ A a g, (Ok a, g).
#[global] Instance M_bind : MBind M := λ A B f m g,
  match m g with
  | (Ok a, g') => f a g'
  | (Raise e, g') => (Raise e, g')
  | (OutOfFuel, g') => (OutOfFuel, g')
  end.

Definition lift {A} (r : result A) : M A := λ g, (r, g).
Definition get_globals : M Globals := λ g, (Ok g, g).
Definition put_globals (g' : Globals) : M unit := λ _, (Ok tt, g').

(** [for x in l: body] *)
Fixpoint for_each {A} (l : list A) (body : A → M unit) : M unit :=
  match l with
  | [] => mret tt
  | x :: l' => body x ;; for_each l' body
  end.

(** [try: m except IOError: ...] where the handler does not raise *)
Definition except_IOError (m : M unit) : M unit := λ g,
  match m g with
  | (Raise IOError, g') => (Ok tt, g')
  | r => r
  end.

(** [gzip.open(f)] and the iteration over its lines; a file that cannot
    be opened is [None]. *)
Definition gzip_open (f : option (list string)) : M (list string) :=
  match f with
  | Some lines => mret lines
  | None => lift (Raise IOError)
  end.

(** ** Loading the sense data *)

(** The files named by [_options] (a file that cannot be opened is
    [None]; a line carries its line terminator) and the switches of
    [_options] that the lexicon reads. *)
Record Files : Type := {
  nounFile : option (list string);
  verbFile : option (list string);
  possibleSensesFile : option (list string)
}.

Section Lexicon.
Variable files : Files.
Variable useOldDataFormat : bool.

(** [_addMostFrequentSense(phrase, simplePOS, sense, numSenses)].  With
    [senseTrie] still [None], [phrase not in senseTrie] is a [TypeError].
    The dictionary returned by [senseTrie.get(phrase)] is the one stored
    in the trie, so the item assignment updates the trie's entry. *)
Definition _addMostFrequentSense (phrase : list string)
    (simplePOS sense : string) (numSenses : Z) : M unit :=
  g ← get_globals;
  match senseTrie g with
  | None => lift (Raise TypeError)
  | Some trie =>
      known ← lift (Trie.__contains__ trie phrase);
      trie' ← (if negb known
               then lift (Trie.__setitem__ trie phrase {[simplePOS := sense]})
               else
                 d ← lift (Trie.get trie phrase None);
                 match d with
                 | Some d =>
                     lift (Trie.__setitem__ trie phrase (<[simplePOS := sense]> d))
                 | None => lift (Raise TypeError)
                 end);
      put_globals
        {| senseTrie := Some trie';
           senseCountMap :=
             <[simplePOS := <[phrase := numSenses]>
                              (default ∅ (senseCountMap g !! simplePOS))]>
               (senseCountMap g);
           possibleSensesMap := possibleSensesMap g |}
  end.

(** [tmp = possibleSensesMap.get(word, set()); tmp.add(label);
    possibleSensesMap[word] = tmp] *)
Definition add_possible_sense (word label : string) : M unit :=
  g ← get_globals;
  put_globals
    {| senseTrie := senseTrie g;
       senseCountMap := senseCountMap g;
       possibleSensesMap :=
         <[word := {[label]} ∪ default ∅ (possibleSensesMap g !! word)]>
           (possibleSensesMap g) |}.

(** [tmp = possibleSensesMap.get(word, set())], [tmp.add(label)] for each
    label, then [possibleSensesMap[word] = tmp]; with no label the word
    still gets an entry. *)
Definition add_possible_senses (word : string) (labels : list string) : M unit :=
  g ← get_globals;
  put_globals
    {| senseTrie := senseTrie g;
       senseCountMap := senseCountMap g;
       possibleSensesMap :=
         <[word := list_to_set labels ∪ default ∅ (possibleSensesMap g !! word)]>
           (possibleSensesMap g) |}.

(** The values of [f] on the items of [l], in order, up to the first
    exception. *)
Fixpoint collect {A B} (l : list A) (f : A → result B) : result (list B) :=
  match l with
  | [] => Ok []
  | x :: l' => y ← f x; ys ← collect l' f; Ok (y :: ys)
  end.

(** ['B-' if j==0 else 'I-'] *)
Definition span_prefix (j : Z) : string := if j =? 0 then "B-" else "I-".

(** [_loadSenseFileOriginalFormat(senseFile, shortPOS)] *)
Definition _loadSenseFileOriginalFormat (senseFile : option (list string))
    (shortPOS : string) : M unit :=
  let spacing := if String.eqb shortPOS "V" then 2 else 3 in
  senseF ← gzip_open senseFile;
  for_each senseF (λ ln,
    let ln := str_drop_last ln in
    if String.eqb ln "" then mret tt else
    let parts := re_split_space ln in
    sense ← lift (py_index parts 2);
    let numSenses := (Z.of_nat (length parts) - 1) / spacing in
    parts0 ← lift (py_index parts 0);
    let wordParts := str_split "_" parts0 in
    _addMostFrequentSense wordParts shortPOS sense numSenses ;;
    for_each (py_range 2 (Z.of_nat (length parts)) spacing) (λ i,
      for_each (py_range 0 (Z.of_nat (length wordParts)) 1) (λ j,
        word ← lift (py_index wordParts j);
        possibleSense ← lift (py_index parts i);
        add_possible_sense word (span_prefix j +:+ possibleSense)))).

(** [assert not d] for a dictionary *)
Definition assert_empty {K' : Type} `{Countable K'} {A} (d : gmap K' A) : M unit :=
  lift (py_assert (bool_decide (d = ∅))).

(** [loadSenseDataOriginalFormat()].  A [Trie] object is always true, so
    [assert not senseTrie] passes exactly when [senseTrie] is [None]. *)
Definition loadSenseDataOriginalFormat : M unit :=
  g ← get_globals;
  lift (py_assert (bool_decide (senseTrie g = None))) ;;
  put_globals {| senseTrie := Some Trie.empty;
                 senseCountMap := senseCountMap g;
                 possibleSensesMap := possibleSensesMap g |} ;;
  assert_empty (possibleSensesMap g) ;;
  assert_empty (senseCountMap g) ;;
  _loadSenseFileOriginalFormat (nounFile files) "N" ;;
  _loadSenseFileOriginalFormat (verbFile files) "V".

(** The body of the loop over the lines of a noun or verb file in
    [loadSenseDataNewFormat].  In [parts[1][parts[1].indexOf('=')+1:]] the
    subscript [parts[1]] is evaluated before the method lookup; the handler
    of [IndexError] prints and re-raises.  A phrase is passed on as the
    string [parts[0]], which the trie reads item by item. *)
Definition loadSenseDataNewFormat_line (pos ln : string) : M unit :=
  let parts := str_split "009" (str_drop_last ln) in
  parts1 ← lift (py_index parts 1);
  eq1 ← lift (str_indexOf parts1 "=");
  let sense := str_slice_from parts1 (eq1 + 1) in
  parts3 ← lift (py_index parts 3);
  eq3 ← lift (str_indexOf parts3 "=");
  numSenses ← lift (py_int (str_slice_from parts3 (eq3 + 1)));
  parts0 ← lift (py_index parts 0);
  _addMostFrequentSense (str_items parts0) pos sense numSenses.

(** The body of the loop over the lines of the possible-senses file. *)
Definition loadSenseDataNewFormat_possible_line (ln : string) : M unit :=
  let parts := str_split "009" (str_drop_last ln) in
  parts0 ← lift (py_index parts 0);
  let wordParts := str_split "_" parts0 in
  for_each (py_range 0 (Z.of_nat (length wordParts)) 1) (λ j,
    word ← lift (py_index wordParts j);
    labels ← lift (collect (py_range 1 (Z.of_nat (length parts)) 1) (λ i,
                     part ← py_index parts i; Ok (span_prefix j +:+ part)));
    add_possible_senses word labels).

(** [loadSenseDataNewFormat()].  The function declares only
    [possibleSensesMap] and [senseCountMap] global and never assigns
    [senseTrie]. *)
Definition loadSenseDataNewFormat : M unit :=
  g ← get_globals;
  assert_empty (possibleSensesMap g) ;;
  assert_empty (senseCountMap g) ;;
  for_each [("N", nounFile files); ("V", verbFile files)] (λ '(pos, f),
    inF ← gzip_open f;
    for_each inF (loadSenseDataNewFormat_line pos)) ;;
  except_IOError (
    psF ← gzip_open (possibleSensesFile files);
    for_each psF loadSenseDataNewFormat_possible_line).

(** ** The most-frequent-sense baseline *)

(** [getMostFrequentSensePrefix(stems, coarse_poses)]; [fuel] bounds the
    depth of the recursion. *)
Fixpoint getMostFrequentSensePrefix_rec (fuel : nat)
    (stems coarse_poses : list string) : M (option (list string * string)) :=
  match fuel with
  | O => lift OutOfFuel
  | S fuel' =>
      g ← get_globals;
      (if bool_decide (senseTrie g = None)
       then lift (py_assert useOldDataFormat) ;; loadSenseDataOriginalFormat
       else mret tt) ;;
      g ← get_globals;
      match senseTrie g with
      | None => lift (Raise AttributeError)
      | Some trie =>
          pos2sense ← lift (Trie.longest trie stems None);
          match pos2sense with
          | Some (prefix, pos2sense) =>
              first_pos ← lift (py_index coarse_poses 0);
              match pos2sense !! first_pos with
              | Some sense => mret (Some (prefix, sense))
              | None =>
                  last_pos ← lift (py_index coarse_poses (-1));
                  match pos2sense !! last_pos with
                  | Some sense => mret (Some (prefix, sense))
                  | None =>
                      let n := Z.of_nat (length prefix) - 1 in
                      let stems := py_slice_to stems n in
                      let coarse_poses := py_slice_to coarse_poses n in
                      match stems with
                      | _ :: _ =>
                          getMostFrequentSensePrefix_rec fuel' stems coarse_poses
                      | [] => mret None
                      end
                  end
              end
          | None => mret None
          end
      end
  end.

Definition getMostFrequentSensePrefix (stems coarse_poses : list string)
  : M (option (list string * string)) :=
  getMostFrequentSensePrefix_rec (S (length stems)) stems coarse_poses.

(** [for tok in sent: ... tok.pos[0]] *)
Fixpoint first_chars (sent : list Token) : result (list string) :=
  match sent with
  | [] => Ok []
  | tok :: sent' =>
      c ← str_first (pos tok); cs ← first_chars sent'; Ok (c :: cs)
  end.

(** [for word in wordParts[1:]: res.append(intern('I-'+sense)); i += 1] *)
Definition append_inside (sense : string) (words : list string)
    (st : list string * nat) : list string * nat :=
  foldl (λ '(res, i) _, (res ++ ["I-" +:+ sense], S i)) st words.

(** The loop [while i < len(sent)] of [extractFirstSensePredictedLabels];
    [fuel] bounds the number of iterations. *)
Fixpoint extractFirstSensePredictedLabels_loop (fuel : nat)
    (sent : list Token) (stems coarse_poses : list string)
    (i : nat) (res : list string) : M (list string) :=
  if bool_decide (i < length sent)%nat then
    match fuel with
    | O => lift OutOfFuel
    | S fuel' =>
        mostFrequentSenseResult ←
          getMostFrequentSensePrefix (drop i stems) (drop i coarse_poses);
        match mostFrequentSenseResult with
        | Some (wordParts, mostFrequentSense) =>
            let res := res ++ ["B-" +:+ mostFrequentSense] in
            let i := S i in
            let '(res, i) :=
              append_inside mostFrequentSense (tail wordParts) (res, i) in
            extractFirstSensePredictedLabels_loop fuel' sent stems coarse_poses i res
        | None =>
            extractFirstSensePredictedLabels_loop fuel' sent stems coarse_poses
              (S i) (res ++ ["O"])
        end
    end
  else mret res.

(** [extractFirstSensePredictedLabels(sent)] *)
Definition extractFirstSensePredictedLabels (sent : list Token)
  : M (list string) :=
  g ← get_globals;
  (if bool_decide (senseTrie g = None)
   then if useOldDataFormat then loadSenseDataOriginalFormat
        else loadSenseDataNewFormat
   else mret tt) ;;
  let stems := stem <$> sent in
  coarse_poses ← lift (first_chars sent);
  extractFirstSensePredictedLabels_loop (length sent) sent stems coarse_poses 0%nat [].

End Lexicon.

(** ** extractFeatureValues: the long-range POS-neighbour template *)

(** [coarsen(pos)]; [pos[0]] raises [IndexError] on an empty tag. *)
Definition coarsen (pos : string) : result string :=
  if String.eqb pos "TO" then Ok "I"
  else if String.prefix "NNP" pos then Ok "^"
  else if String.eqb pos "CC" then Ok "&"
  else if String.eqb pos "CD" then Ok "#"
  else if String.eqb pos "RP" then Ok "T"
  else str_first pos.

(** [coarsen(w.pos) for w in sent] *)
Fixpoint coarsen_all (sent : list Token) : result (list string) :=
  match sent with
  | [] => Ok []
  | w :: sent' => c ← coarsen (pos w); cs ← coarsen_all sent'; Ok (c :: cs)
  end.

(** The unordered pairs of coarse tags for which the template fires. *)
Definition neighbor_pairs : list (string * string) :=
  [("V","V"); ("V","N"); ("V","R"); ("V","T"); ("V","M"); ("V","P");
   ("J","N"); ("N","N"); ("D","N"); ("D","^"); ("N","^"); ("^","^");
   ("R","J"); ("N","&"); ("^","&"); ("V","I"); ("I","N")]%string.

(** [{cpos,cposj} in [...]] *)
Definition in_neighbor_pairs (cpos cposj : string) : bool :=
  existsb (λ '(a, b), String.eqb cpos a && String.eqb cposj b
                      || String.eqb cpos b && String.eqb cposj a)
    neighbor_pairs.

(** [sentpos.rindex(cpos,0,j)] under the guard [cpos in sentpos[:j]]:
    the last position before [j] that holds [cpos], if there is one. *)
Definition left_neighbor (sentpos : list ascii) (j : nat) (cpos : ascii)
  : option nat :=
  '(i, _) ← list_find (λ c, c = cpos) (reverse (take j sentpos));
  Some (length (take j sentpos) - 1 - i)%nat.

(** [sentpos.index(cpos,j+1)] under the guard [cpos in sentpos[j+1:]]:
    the first position after [j] that holds [cpos], if there is one. *)
Definition right_neighbor (sentpos : list ascii) (j : nat) (cpos : ascii)
  : option nat :=
  '(i, _) ← list_find (λ c, c = cpos) (drop (S j) sentpos);
  Some (S j + i)%nat.

(** What the template does to [bindist = k-j] before it is written into
    the feature name; [//] is floor division. *)
Definition bin_distance (bindist : Z) : Z :=
  if Z.abs bindist >? 5 then
    if Z.abs bindist <? 10 then
      (if bindist >? 0 then 6 else -6)
    else bindist / 10 * 10
  else bindist.

(** The features written for the neighbour at [k]; [before] and [after]
    surround the distance (['<-{}'] or ['{}->']) and [lex] is ['<'] or
    ['>'].  Every feature gets the value 1. *)
Definition neighbor_features (useBigramFeatures : bool) (sent : list Token)
    (j k : nat) (cpos cposj before after lex : string)
  : result (list (list string)) :=
  let bindist := bin_distance (Z.of_nat k - Z.of_nat j) in
  let dist := before +:+ pretty bindist +:+ after in
  sent_k ← py_index sent (Z.of_nat k);
  sent_j ← py_index sent (Z.of_nat j);
  Ok ([[cpos; dist; cposj]; [cpos; lex; stem sent_k; cposj]] ++
      if useBigramFeatures && (Z.abs bindist <? 6)
      then [[cpos; dist; stem sent_j]; [cpos; lex; stem sent_k; stem sent_j]]
      else []).

(** The body of [if _options['usePOSNeighborFeatures']:], as the list of
    the feature names it sets, in order. *)
Definition posNeighborFeatures (useBigramFeatures : bool) (sent : list Token)
    (j : nat) : result (list (list string)) :=
  cposes ← coarsen_all sent;
  let sentpos := list_ascii_of_string (String.concat "" cposes) in
  sent_j ← py_index sent (Z.of_nat j);
  cposj ← coarsen (pos sent_j);
  foldl (λ acc c,
      feats ← acc;
      let cpos := String c EmptyString in
      if negb (in_neighbor_pairs cpos cposj) then Ok feats else
      left ← match left_neighbor sentpos j c with
             | Some k =>
                 neighbor_features useBigramFeatures sent j k cpos cposj "<-" "" "<"
             | None => Ok []
             end;
      right ← match right_neighbor sentpos j c with
              | Some k =>
                  neighbor_features useBigramFeatures sent j k cpos cposj "" "->" ">"
              | None => Ok []
              end;
      Ok (feats ++ left ++ right))
    (Ok []) (list_ascii_of_string "VN^ITPJRDM#&").

(** ** Notions used in the statements *)

(** The two tables of an indexer agree, and the indices in use are
    0, 1, ..., [len - 1]: symbol [s] has index [i] exactly when [i] is
    the position of [s] in [_i2s]. *)
Definition indexed_in_order {Sym : Type} `{Countable Sym}
    (self : SequentialStringIndexer.t Sym) : Prop :=
  ∀ s i, SequentialStringIndexer._s2i self !! s = Some i ↔
         0 ≤ i ∧ SequentialStringIndexer._i2s self !! Z.to_nat i = Some s.

(** An indexer that was never frozen: the flag is off and [_counts]
    exists exactly when a cutoff was given. *)
Definition unfrozen {Sym : Type} `{Countable Sym} (cutoff : option Z)
    (self : SequentialStringIndexer.t Sym) : Prop :=
  SequentialStringIndexer._frozen self = false ∧
  SequentialStringIndexer._cutoff self = cutoff ∧
  (is_Some cutoff ↔ is_Some (SequentialStringIndexer._counts self)).

(** A label of the most-frequent-sense baseline: [O], or a sense
    behind [B-] or [I-]. *)
Definition bio_label (l : string) : Prop :=
  l = "O"%string ∨ ∃ sense, l = ("B-" +:+ sense)%string ∨ l = ("I-" +:+ sense)%string.

(** Every [I-] label comes right after a [B-] or [I-] label of the same
    sense. *)
Definition inside_follows (res : list string) : Prop :=
  ∀ i sense, res !! i = Some ("I-" +:+ sense)%string →
    ∃ j, i = S j ∧
      (res !! j = Some ("B-" +:+ sense)%string ∨
       res !! j = Some ("I-" +:+ sense)%string).

(** The claim as the specification words it: a bucket of magnitude 6 for
    the distances of magnitude 6 to 9, and the distance rounded toward
    zero to a multiple of 10 from magnitude 10 on. *)
Definition buckets_round_toward_zero : Prop :=
  ∀ (sentpos : list ascii) (j : nat) (c : ascii) (k : nat),
    left_neighbor sentpos j c = Some k ∨ right_neighbor sentpos j c = Some k →
    let d := Z.of_nat k - Z.of_nat j in
    5 < Z.abs d →
    (Z.abs d ≤ 9 → bin_distance d = 6 * Z.sgn d) ∧
    (10 ≤ Z.abs d → bin_distance d = 10 * (d ÷ 10)).

(** A computation that never uses up a recursion budget. *)
Definition fuel_free {A} (m : M A) : Prop := ∀ g, (m g).1 ≠ OutOfFuel.

(** The lexicon is loaded in [g] and [g'] is [g]; or it is not, and the
    first use loads it in the original format, which gives [g']. *)
Definition lexicon_ready (files : Files) (useOldDataFormat : bool)
    (g g' : Globals) : Prop :=
  (is_Some (senseTrie g) ∧ g' = g) ∨
  (senseTrie g = None ∧ useOldDataFormat = true ∧
   loadSenseDataOriginalFormat files g = (Ok tt, g')).

(** ** Sample data *)

(** One line in the layout that [loadSenseDataNewFormat] parses:
    tab-separated columns with [key=value] fields. *)
Definition sample_new_files : Files :=
  {| nounFile := Some ["bank" +:+ String "009" "sense=noun.artifact"
                         +:+ String "009" "x" +:+ String "009" "n=2"
                         +:+ String "010" ""]%string;
     verbFile := Some [];
     possibleSensesFile :=
       Some ["bank" +:+ String "009" "noun.artifact" +:+ String "010" ""]%string |}.

(** Lines in the layout that [loadSenseDataOriginalFormat] parses: the
    noun file has three columns for each sense, the verb file two. *)
Definition sample_old_files : Files :=
  {| nounFile := Some ["bank 1 noun.artifact 5 2 noun.group 3" +:+ String "010" "";
                       "new_york 1 noun.location 4" +:+ String "010" ""]%string;
     verbFile := Some ["go_out 1 verb.motion" +:+ String "010" ""]%string;
     possibleSensesFile := None |}.

(** The assignments of the docstring of [Trie], with integer items. *)
Definition sample_trie_items : list (list Z * string) :=
  [([3; 1; 4], "314"); ([3; 1; 4; 1; 5; 9], "314159");
   ([0; 0; 3; 1; 4], "00314")]%string.

(** The trie that these assignments build. *)
Definition sample_digit_trie : Trie.t Z string :=
  Eval vm_compute in
    match Trie.setitems Trie.empty sample_trie_items with
    | Ok self => self
    | _ => Trie.empty
    end.

(** The state after [loadSenseDataOriginalFormat] on the sample files,
    and the trie it holds. *)
Definition sample_globals : Globals :=
  Eval vm_compute in
    (loadSenseDataOriginalFormat sample_old_files initial_globals).2.

Definition sample_trie : Trie.t string (gmap string string) :=
  Eval vm_compute in default Trie.empty (senseTrie sample_globals).

Definition sample_token (s p : string) : Token :=
  {| token := s; stem := s; pos := p; shape := ""; gold := ""; prediction := "" |}.

Definition sample_sentence : list Token :=
  [sample_token "go" "VB"; sample_token "out" "RP"; sample_token "bank" "NN";
   sample_token "new" "JJ"; sample_token "york" "NNP"]%string.

(** Calls on an indexer with cutoff 2: "a" is counted twice, "b" once,
    and the count of "c" is set to 5. *)
Definition sample_calls : list (SequentialStringIndexer.call (Sym:=string)) :=
  [SequentialStringIndexer.Add "a"; SequentialStringIndexer.Add "b";
   SequentialStringIndexer.Add "a"; SequentialStringIndexer.Add "c";
   SequentialStringIndexer.Setcount (KSym "c") 5]%string.

(** The indexer after these calls. *)
Definition sample_indexer : SequentialStringIndexer.t string :=
  Eval vm_compute in
    match SequentialStringIndexer.calls
            (SequentialStringIndexer.__init__ (Some 2)) sample_calls with
    | Ok self => self
    | _ => SequentialStringIndexer.__init__ None
    end.

(** The alphabet {a, b, c}, frozen. *)
Definition abc_frozen : result (SequentialStringIndexer.t string) :=
  indexer ← SequentialStringIndexer.adds (SequentialStringIndexer.__init__ None)
              ["a"; "b"; "c"]%string;
  SequentialStringIndexer.freeze indexer.

(** * Properties *)

(** ** The prefix tree *)

(** Closes [a = b] between closed terms by evaluating both sides. *)
Ltac by_evaluation :=
  lazymatch goal with
  | |- ?a = ?b => vm_cast_no_check (@eq_refl _ b)
  end.

Lemma result_bind_Ok {A B} (a : A) (f : A → result B) : Ok a ≫= f = f a.
Proof. reflexivity. Qed.

Lemma result_bind_Raise {A B} e (f : A → result B) : Raise e ≫= f = Raise e.
Proof. reflexivity. Qed.

Section TrieProperties.
Context {K : Type} `{Countable K} {V : Type} `{EqDecision V}.
Implicit Types (self : Trie.t K V) (seq p q : list K) (v : V).

(** The equations of the methods on a sequence of two items or more. *)
Lemma Trie_setitem_cons self first r rest v :
  Trie.__setitem__ self (first :: r :: rest) v =
    child ← Trie.__setitem__
              (default Trie.empty (Trie._map self !! first)) (r :: rest) v;
    Ok (Trie.Node (<[first := child]> (Trie._map self)) (Trie._vals self)).
Proof. reflexivity. Qed.

Lemma Trie_get_cons self first r rest d :
  Trie.get self (first :: r :: rest) d =
    match Trie._map self !! first with
    | None => Ok d
    | Some child => Trie.get child (r :: rest) None
    end.
Proof. reflexivity. Qed.

Lemma Trie_get_single self first d :
  Trie.get self [first] d =
    match Trie._vals self !! first with
    | Some v => Ok (Some v)
    | None => Ok d
    end.
Proof. reflexivity. Qed.

Lemma Trie_get_empty seq :
  seq ≠ [] → Trie.get (V:=V) Trie.empty seq None = Ok None.
Proof. destruct seq as [|a [|b seq]]; done. Qed.

Lemma Trie_setitem_ok self seq v :
  seq ≠ [] → ∃ self', Trie.__setitem__ self seq v = Ok self'.
Proof.
  revert self. induction seq as [|first rest IH]; intros self Hne; [done|].
  destruct rest as [|r rest]; [simpl; eauto|].
  rewrite Trie_setitem_cons.
  destruct (IH (default Trie.empty (Trie._map self !! first))) as [c Hc]; [done|].
  rewrite Hc. simpl. eauto.
Qed.

Lemma Trie_setitem_nonempty self seq v self' :
  Trie.__setitem__ self seq v = Ok self' → seq ≠ [].
Proof. by destruct seq. Qed.

(** Reading back after one assignment. *)
Lemma Trie_get_setitem seq : ∀ self v self' q,
  Trie.__setitem__ self seq v = Ok self' → q ≠ [] →
  Trie.get self' q None =
    if decide (seq = q) then Ok (Some v) else Trie.get self q None.
Proof.
  induction seq as [|first rest IH]; intros self v self' q Hset Hq; [done|].
  destruct q as [|a q]; [done|]. clear Hq.
  destruct rest as [|r rest].
  - simpl in Hset. injection Hset as <-.
    destruct q as [|b q].
    + rewrite !Trie_get_single. simpl.
      destruct (decide (first = a)) as [->|Hne].
      * rewrite lookup_insert_eq. by rewrite decide_True.
      * rewrite lookup_insert_ne by done. rewrite decide_False by congruence. done.
    + rewrite decide_False by congruence. done.
  - rewrite Trie_setitem_cons in Hset.
    destruct (Trie.__setitem__ (default Trie.empty (Trie._map self !! first))
                (r :: rest) v) as [c|e|] eqn:Hc; simpl in Hset; [|done|done].
    injection Hset as <-.
    destruct q as [|b q].
    + rewrite decide_False by congruence. done.
    + rewrite !Trie_get_cons. cbn [Trie._map].
      destruct (decide (first = a)) as [->|Hne].
      * rewrite lookup_insert_eq.
        rewrite (IH _ _ _ (b :: q) Hc) by done.
        destruct (decide (r :: rest = b :: q)) as [->|Hne'].
        { by rewrite decide_True. }
        rewrite decide_False by congruence.
        destruct (Trie._map self !! a) as [c0|]; [done|].
        by apply Trie_get_empty.
      * rewrite lookup_insert_ne by done.
        rewrite decide_False by congruence. done.
Qed.

(** Reading back after a series of assignments: the last value assigned
    to the key, or what the trie held before. *)
Lemma Trie_get_setitems kvs : ∀ self self' q,
  Trie.setitems self kvs = Ok self' → q ≠ [] →
  Trie.get self' q None =
    match Trie.assigned kvs q with
    | Some w => Ok (Some w)
    | None => Trie.get self q None
    end.
Proof.
  induction kvs as [|[k v] kvs IH]; intros self self' q Hs Hq; simpl in *.
  - by injection Hs as <-.
  - destruct (Trie.__setitem__ self k v) as [self1| |] eqn:H1; simpl in Hs; [|done|done].
    rewrite (IH _ _ _ Hs Hq).
    destruct (Trie.assigned kvs q); [done|].
    rewrite (Trie_get_setitem _ _ _ _ _ H1 Hq). by destruct (decide (k = q)).
Qed.

Lemma Trie_assigned_nonempty kvs self self' q :
  Trie.setitems self kvs = Ok self' → is_Some (Trie.assigned kvs q) → q ≠ [].
Proof.
  revert self. induction kvs as [|[k v] kvs IH]; intros self Hs [w Hw]; simpl in *.
  - done.
  - destruct (Trie.__setitem__ self k v) as [self1| |] eqn:H1; simpl in Hs; [|done|done].
    destruct (Trie.assigned kvs q) eqn:Hq.
    + eapply IH; eauto.
    + destruct (decide (k = q)) as [<-|]; [|done].
      by eapply Trie_setitem_nonempty.
Qed.

Lemma Trie_longest_cons self first r rest d :
  Trie.longest self (first :: r :: rest) d =
    longer ← match Trie._map self !! first with
             | Some child => Trie.longest child (r :: rest) d
             | None => Ok d
             end;
    if decide (longer = d) then
      match Trie._vals self !! first with
      | Some v => Ok (Some ([first], v))
      | None => Ok d
      end
    else
      match longer with
      | Some (p, v) => Ok (Some (first :: p, v))
      | None => Raise TypeError
      end.
Proof. reflexivity. Qed.

(** Reading a key of two items or more goes through the child. *)
Lemma Trie_get_child self first q :
  q ≠ [] →
  Trie.get self (first :: q) None =
    match Trie._map self !! first with
    | None => Ok None
    | Some child => Trie.get child q None
    end.
Proof. destruct q; [done|]. intros _. apply Trie_get_cons. Qed.

(** [longest] with the default [None]: it never raises on a non-empty
    sequence; [None] means no non-empty prefix holds a value; a pair is a
    prefix holding the value, and no longer prefix holds one. *)
Lemma Trie_longest_spec seq : ∀ self,
  seq ≠ [] →
  match Trie.longest self seq None with
  | Ok None =>
      ∀ p, p ≠ [] → p `prefix_of` seq → Trie.get self p None = Ok None
  | Ok (Some (p, v)) =>
      p ≠ [] ∧ p `prefix_of` seq ∧ Trie.get self p None = Ok (Some v) ∧
      ∀ q, q `prefix_of` seq → (length p < length q)%nat →
           Trie.get self q None = Ok None
  | Raise _ | OutOfFuel => False
  end.
Proof.
  induction seq as [|first rest IH]; intros self Hne; [done|]. clear Hne.
  assert (Hlong : ∀ q, q `prefix_of` first :: rest → (1 < length q)%nat →
                    ∃ q', q = first :: q' ∧ q' ≠ [] ∧ q' `prefix_of` rest).
  { intros [|a [|b q]] Hq Hlen; simpl in Hlen; [lia..|].
    pose proof (prefix_cons_inv_1 _ _ _ _ Hq) as ->.
    apply prefix_cons_inv_2 in Hq. eauto. }
  assert (Hone : ∀ q, q ≠ [] → q `prefix_of` first :: rest →
                   q = [first] ∨ (1 < length q)%nat).
  { intros [|a [|b q]] Hq0 Hq; [done| |right; simpl; lia].
    left. by rewrite (prefix_cons_inv_1 _ _ _ _ Hq). }
  destruct rest as [|r rest].
  - simpl. destruct (Trie._vals self !! first) as [v|] eqn:Hv.
    + split; [done|]. split; [done|]. rewrite Trie_get_single, Hv.
      split; [done|]. intros q Hq Hlen. apply prefix_length in Hq.
      simpl in *. lia.
    + intros p Hp0 Hp. destruct (Hone p Hp0 Hp) as [->|Hlen].
      * by rewrite Trie_get_single, Hv.
      * apply prefix_length in Hp. simpl in *. lia.
  - rewrite Trie_longest_cons.
    assert (Hfall :
      (∀ q, q ≠ [] → q `prefix_of` r :: rest →
            Trie.get self (first :: q) None = Ok None) →
      match
        (if decide (@None (list K * V) = None) then
           match Trie._vals self !! first with
           | Some v => Ok (Some ([first], v))
           | None => Ok None
           end
         else Raise TypeError)
      with
      | Ok None =>
          ∀ p, p ≠ [] → p `prefix_of` first :: r :: rest →
               Trie.get self p None = Ok None
      | Ok (Some (p, v)) =>
          p ≠ [] ∧ p `prefix_of` first :: r :: rest ∧
          Trie.get self p None = Ok (Some v) ∧
          ∀ q, q `prefix_of` first :: r :: rest → (length p < length q)%nat →
               Trie.get self q None = Ok None
      | Raise _ | OutOfFuel => False
      end).
    { intros Hdeep. rewrite decide_True by done.
      destruct (Trie._vals self !! first) as [v|] eqn:Hv.
      - split; [done|]. split; [by apply prefix_cons, prefix_nil|].
        rewrite Trie_get_single, Hv. split; [done|].
        intros q Hq Hlen. destruct (Hlong q Hq Hlen) as (q' & -> & ? & ?).
        by apply Hdeep.
      - intros p Hp0 Hp. destruct (Hone p Hp0 Hp) as [->|Hlen].
        + by rewrite Trie_get_single, Hv.
        + destruct (Hlong p Hp Hlen) as (q' & -> & ? & ?). by apply Hdeep. }
    destruct (Trie._map self !! first) as [child|] eqn:Hm.
    + specialize (IH child ltac:(done)).
      destruct (Trie.longest child (r :: rest) None) as [[[p v]|]|e|];
        [| |done|done].
      * rewrite result_bind_Ok, decide_False by done.
        destruct IH as (Hp0 & Hp & Hget & Hmax).
        split; [done|]. split; [by apply prefix_cons|].
        rewrite Trie_get_child, Hm by done. split; [done|].
        intros q Hq Hlen.
        destruct (Hlong q Hq) as (q' & -> & ? & ?).
        { destruct p; [done|]. simpl in *. lia. }
        rewrite Trie_get_child, Hm by done. apply Hmax; [done|].
        simpl in Hlen. lia.
      * apply Hfall. intros q Hq0 Hq.
        rewrite Trie_get_child, Hm by done. by apply IH.
    + apply Hfall. intros q Hq0 Hq. by rewrite Trie_get_child, Hm.
Qed.

(** The methods use no recursion budget. *)
Lemma Trie_contains_fuel_free seq : ∀ self,
  Trie.__contains__ self seq ≠ OutOfFuel.
Proof.
  induction seq as [|first rest IH]; intros self; [done|].
  destruct rest as [|r rest]; [done|].
  change (Trie.__contains__ self (first :: r :: rest))
    with (match Trie._map self !! first with
          | None => Ok false
          | Some child => Trie.__contains__ child (r :: rest)
          end).
  destruct (Trie._map self !! first); [apply IH|done].
Qed.

Lemma Trie_get_fuel_free seq : ∀ self d, Trie.get self seq d ≠ OutOfFuel.
Proof.
  induction seq as [|first rest IH]; intros self d; [done|].
  destruct rest as [|r rest].
  - rewrite Trie_get_single. by destruct (_ !! _).
  - rewrite Trie_get_cons. destruct (_ !! _); [apply IH|done].
Qed.

Lemma Trie_setitem_fuel_free self seq v :
  Trie.__setitem__ self seq v ≠ OutOfFuel.
Proof.
  destruct seq as [|first rest]; [done|].
  destruct (Trie_setitem_ok self (first :: rest) v) as [self' ->]; done.
Qed.

(** A trie built from the empty one holds, under each key, the value last
    assigned to it. *)
Lemma Trie_get_assigned kvs self q :
  Trie.setitems Trie.empty kvs = Ok self → q ≠ [] →
  Trie.get self q None = Ok (Trie.assigned kvs q).
Proof.
  intros Hs Hq. rewrite (Trie_get_setitems _ _ _ _ Hs Hq).
  destruct (Trie.assigned kvs q); [done|]. by apply Trie_get_empty.
Qed.

(** C3.  Longest-prefix correctness.  Let the trie be built by assignments
    [kvs], and let [S] be non-empty.  If keys [K1] and [K2] were assigned,
    [K1] a strict prefix of [K2] and [K2] a prefix of [S], then [longest]
    returns a pair [(P, v)] where [P] is an assigned key with stored value
    [v], [P] is a prefix of [S] extending [K2] (so never [K1]), and [P] is
    [K2] itself, with the value stored for [K2], when no longer assigned
    key is a prefix of [S].  If no non-empty prefix of [S] was ever
    assigned, [longest] returns the default. *)
Theorem Trie_longest_prefix_correct kvs self (S : list K) :
  Trie.setitems Trie.empty kvs = Ok self → S ≠ [] →
  (∀ K1 K2 v2,
     is_Some (Trie.assigned kvs K1) → Trie.assigned kvs K2 = Some v2 →
     K1 `prefix_of` K2 → K1 ≠ K2 → K2 `prefix_of` S →
     ∃ P v,
       Trie.longest self S None = Ok (Some (P, v)) ∧
       Trie.assigned kvs P = Some v ∧
       K2 `prefix_of` P ∧ P `prefix_of` S ∧ P ≠ K1 ∧
       ((∀ K3, is_Some (Trie.assigned kvs K3) → K3 `prefix_of` S →
               (length K3 ≤ length K2)%nat) →
        P = K2 ∧ v = v2))
  ∧ ((∀ P, P ≠ [] → P `prefix_of` S → Trie.assigned kvs P = None) →
     Trie.longest self S None = Ok None).
Proof.
  intros Hs HS. pose proof (Trie_longest_spec S self HS) as Hspec. split.
  - intros K1 K2 v2 HK1 HK2 H12 Hne H2S.
    assert (K2 ≠ []) as HK20.
    { eapply Trie_assigned_nonempty; [exact Hs|]. by rewrite HK2. }
    pose proof (Trie_get_assigned _ _ _ Hs HK20) as Hg2. rewrite HK2 in Hg2.
    destruct (Trie.longest self S None) as [[[P v]|]|e|]; [| |done|done].
    + destruct Hspec as (HP0 & HPS & HgP & Hmax).
      rewrite (Trie_get_assigned _ _ _ Hs HP0) in HgP.
      injection HgP as HaP.
      assert (length K2 ≤ length P)%nat as Hlen.
      { destruct (decide (length P < length K2)%nat) as [Hlt|]; [|lia].
        rewrite (Hmax K2 H2S Hlt) in Hg2. done. }
      assert (K2 `prefix_of` P) as H2P.
      { destruct (prefix_weak_total _ _ _ H2S HPS) as [|HP2]; [done|].
        by rewrite (prefix_length_eq _ _ HP2 Hlen). }
      exists P, v. split_and!; try done.
      * intros ->. apply Hne. apply prefix_length_eq; [done|].
        by apply prefix_length.
      * intros Hlongest. assert (P = K2) as ->; [|split; congruence].
        apply eq_sym, prefix_length_eq; [done|]. apply Hlongest; [|done].
        by rewrite HaP.
    + rewrite (Hspec K2 HK20 H2S) in Hg2. done.
  - intros Hnone.
    destruct (Trie.longest self S None) as [[[P v]|]|e|]; [|done|done|done].
    destruct Hspec as (HP0 & HPS & HgP & _).
    rewrite (Trie_get_assigned _ _ _ Hs HP0), (Hnone P HP0 HPS) in HgP. done.
Qed.

End TrieProperties.

Lemma Trie_longest_prefix_correct_witness :
  Trie.setitems Trie.empty sample_trie_items = Ok sample_digit_trie ∧
  Trie.longest sample_digit_trie [3; 1; 4; 1; 5; 9; 2] None
    = Ok (Some ([3; 1; 4; 1; 5; 9], "314159"%string)).
Proof.
  assert (Trie.setitems Trie.empty sample_trie_items = Ok sample_digit_trie)
    as Hbuilt by (by vm_compute).
  split; [exact Hbuilt|].
  destruct (Trie_longest_prefix_correct sample_trie_items sample_digit_trie
              [3; 1; 4; 1; 5; 9; 2] Hbuilt ltac:(done)) as [Hlongest _].
  destruct (Hlongest [3; 1; 4] [3; 1; 4; 1; 5; 9] "314159"%string)
    as (P & v & Hl & _ & _ & _ & _ & Hmax).
  - eexists. by vm_compute.
  - by vm_compute.
  - by exists [1; 5; 9].
  - done.
  - by exists [2].
  - destruct Hmax as [-> ->]; [|exact Hl].
    intros K3 [w Hw] Hpre. unfold sample_trie_items in Hw.
    cbn [Trie.assigned] in Hw.
    destruct (decide ([0; 0; 3; 1; 4] = K3)) as [<-|]; [simpl; lia|].
    destruct (decide ([3; 1; 4; 1; 5; 9] = K3)) as [<-|]; [simpl; lia|].
    destruct (decide ([3; 1; 4] = K3)) as [<-|]; [simpl; lia|done].
Defined.

(** ** The distance buckets of the POS-neighbour template *)

Lemma left_neighbor_before sentpos j c k :
  left_neighbor sentpos j c = Some k → (k < j)%nat ∧ sentpos !! k = Some c.
Proof.
  unfold left_neighbor. intros Hk.
  destruct (list_find _ _) as [[i x]|] eqn:Hf; simplify_eq/=.
  apply list_find_Some in Hf as (Hi & -> & _).
  pose proof (lookup_lt_Some _ _ _ Hi) as Hlt. rewrite length_reverse in Hlt.
  rewrite reverse_lookup in Hi by done.
  rewrite lookup_take_Some in Hi. destruct Hi as [Hi Hlt']. split; [lia|].
  rewrite <- Hi. f_equal. lia.
Qed.

Lemma right_neighbor_after sentpos j c k :
  right_neighbor sentpos j c = Some k → (j < k)%nat ∧ sentpos !! k = Some c.
Proof.
  unfold right_neighbor. intros Hk.
  destruct (list_find _ _) as [[i x]|] eqn:Hf; simplify_eq/=.
  apply list_find_Some in Hf as (Hi & -> & _).
  rewrite lookup_drop in Hi. split; [lia|done].
Qed.

(** The bucket of any distance, case by case. *)
Lemma bin_distance_cases d :
  (Z.abs d ≤ 5 → bin_distance d = d) ∧
  (6 ≤ Z.abs d ≤ 9 → bin_distance d = 6 * Z.sgn d) ∧
  (10 ≤ Z.abs d → bin_distance d = 10 * (d / 10)).
Proof. unfold bin_distance. repeat case_match; lia. Qed.

(** What the template computes.  For a neighbour found at signed
    distance [d = k - j] with [|d| > 5], the feature name carries
    [bin_distance d], which is 6 or -6 with the sign of [d] when
    [6 <= |d| <= 9], and from [|d| >= 10] on is [d] rounded down (toward
    minus infinity) to a multiple of 10: it has the sign of [d]; for a
    neighbour on the right it is [d] rounded toward zero; for a neighbour
    on the left the magnitude is rounded up. *)
Lemma bin_distance_buckets (sentpos : list ascii) (j : nat) (c : ascii)
    (k : nat) :
  left_neighbor sentpos j c = Some k ∨ right_neighbor sentpos j c = Some k →
  let d := Z.of_nat k - Z.of_nat j in
  5 < Z.abs d →
  (∀ b sent cpos cposj before after lex feats,
     neighbor_features b sent j k cpos cposj before after lex = Ok feats →
     feats !! 0%nat =
       Some [cpos; before +:+ pretty (bin_distance d) +:+ after; cposj]) ∧
  (Z.abs d ≤ 9 → bin_distance d = 6 * Z.sgn d) ∧
  (10 ≤ Z.abs d →
     bin_distance d = 10 * (d / 10) ∧
     bin_distance d ≤ d < bin_distance d + 10 ∧
     Z.sgn (bin_distance d) = Z.sgn d ∧
     (0 < d → bin_distance d = 10 * (d ÷ 10)) ∧
     (d < 0 → bin_distance d = - (10 * ((Z.abs d + 9) / 10)))).
Proof.
  intros Hk d Hd. destruct (bin_distance_cases d) as (_ & Hnear & Hfar).
  split; [|split].
  - intros b sent cpos cposj before after lex feats Hf.
    unfold neighbor_features in Hf.
    destruct (py_index sent (Z.of_nat k)) as [sk| |]; simpl in Hf; [|done..].
    destruct (py_index sent (Z.of_nat j)) as [sj| |]; simpl in Hf; [|done..].
    by injection Hf as <-.
  - intros. apply Hnear. lia.
  - intros H10. rewrite (Hfar H10).
    pose proof (Z.div_mod d 10 ltac:(done)).
    pose proof (Z.mod_pos_bound d 10 ltac:(done)).
    split_and!; [done|lia|lia|lia| |].
    + intros Hpos. rewrite Z.quot_div_nonneg by lia. done.
    + intros Hneg.
      pose proof (Z.div_mod (Z.abs d + 9) 10 ltac:(done)).
      pose proof (Z.mod_pos_bound (Z.abs d + 9) 10 ltac:(done)). lia.
Qed.

(** C1.  The buckets of the left neighbour do not round toward zero.
    With the nearest noun 15 tokens to the left of token 15, the signed
    distance is -15 and the template writes the feature name
    [("N", "<--20", cposj)]: the bucket is -20, while -15 rounded toward
    zero to a multiple of 10 is -10; so the rule of the claim does not
    hold.  The same block treats the two signs alike in the branch for
    the magnitudes 6 to 9 (the bucket of [-d] is minus the bucket of
    [d]) and rounds toward zero on the right ([d >= 10]); only the floor
    division of a negative distance rounds the magnitude up, for every
    [d <= -10] that is not a multiple of 10, so that the bucket -10 holds
    the distance -10 alone. *)
Theorem bin_distance_left_magnitude_rounded_up :
  ¬ buckets_round_toward_zero ∧
  (left_neighbor (list_ascii_of_string "N,,,,,,,,,,,,,,V") 15 "N" = Some 0%nat ∧
   bin_distance (Z.of_nat 0 - Z.of_nat 15) = -20 ∧
   10 * ((Z.of_nat 0 - Z.of_nat 15) ÷ 10) = -10 ∧
   ∀ b sent cposj feats,
     neighbor_features b sent 15 0 "N" cposj "<-" "" "<" = Ok feats →
     feats !! 0%nat = Some ["N"; "<--20"; cposj]%string) ∧
  (∀ d, 6 ≤ Z.abs d ≤ 9 → bin_distance (- d) = - bin_distance d) ∧
  (∀ d, 10 ≤ d → bin_distance d = 10 * (d ÷ 10)) ∧
  (∀ d, d ≤ -10 → d `mod` 10 ≠ 0 → bin_distance d = 10 * (d ÷ 10) - 10) ∧
  (∀ d, bin_distance d = -10 ↔ d = -10).
Proof.
  assert (∀ d, d ≤ -10 → 10 * (d ÷ 10) = - (10 * ((- d) / 10))) as Hquot.
  { intros d Hd. replace d with (- - d) at 1 by lia.
    rewrite Z.quot_opp_l by done. rewrite Z.quot_div_nonneg by lia. lia. }
  split_and!.
  - intros Hclaim.
    destruct (Hclaim (list_ascii_of_string "N,,,,,,,,,,,,,,V") 15%nat "N"%char
                0%nat) as [_ Hfar].
    + left. reflexivity.
    + simpl. lia.
    + specialize (Hfar ltac:(simpl; lia)). vm_compute in Hfar. discriminate.
  - reflexivity.
  - reflexivity.
  - reflexivity.
  - intros b sent cposj feats Hf. unfold neighbor_features in Hf.
    destruct (py_index sent (Z.of_nat 0)) as [sk| |]; simpl in Hf; [|done..].
    destruct (py_index sent (Z.of_nat 15)) as [sj| |]; simpl in Hf; [|done..].
    by injection Hf as <-.
  - intros d Hd. unfold bin_distance. repeat case_match; lia.
  - intros d Hd. destruct (bin_distance_cases d) as (_ & _ & Hfar).
    rewrite Hfar by lia. by rewrite Z.quot_div_nonneg by lia.
  - intros d Hd Hmod. destruct (bin_distance_cases d) as (_ & _ & Hfar).
    rewrite Hfar by lia. rewrite Hquot by done.
    pose proof (Z.div_mod d 10 ltac:(done)).
    pose proof (Z.mod_pos_bound d 10 ltac:(done)).
    pose proof (Z.div_mod (- d) 10 ltac:(done)).
    pose proof (Z.mod_pos_bound (- d) 10 ltac:(done)). lia.
  - intros d. split; [|by intros ->].
    pose proof (Z.div_mod d 10 ltac:(done)).
    pose proof (Z.mod_pos_bound d 10 ltac:(done)).
    unfold bin_distance. repeat case_match; lia.
Qed.

(** ** The feature alphabet: lookups *)

Section IndexerLookups.
Context {Sym : Type} `{Countable Sym}.
Implicit Types (self : SequentialStringIndexer.t Sym) (s : Sym) (k : Z).

(** [get] with an index at or beyond the length, or with a symbol that is
    not indexed, returns the default. *)
Lemma SequentialStringIndexer_get_default self d :
  (∀ k, Z.of_nat (length (SequentialStringIndexer._i2s self)) ≤ k →
        SequentialStringIndexer.get self (KInt k) d = Ok d) ∧
  (∀ s, SequentialStringIndexer._s2i self !! s = None →
        SequentialStringIndexer.get self (KSym s) d = Ok d).
Proof.
  split.
  - intros k Hk. unfold SequentialStringIndexer.get.
    destruct (Z.geb_spec k (Z.of_nat (length (SequentialStringIndexer._i2s self)))); [done|lia].
  - intros s Hs. unfold SequentialStringIndexer.get. by rewrite Hs.
Qed.

(** Raw indexing fails on a miss. *)
Lemma SequentialStringIndexer_getitem_miss self :
  (∀ k, Z.of_nat (length (SequentialStringIndexer._i2s self)) ≤ k →
        SequentialStringIndexer.__getitem__ self (KInt k) = Raise IndexError) ∧
  (∀ k, k < - Z.of_nat (length (SequentialStringIndexer._i2s self)) →
        SequentialStringIndexer.__getitem__ self (KInt k) = Raise IndexError) ∧
  (∀ s, SequentialStringIndexer._s2i self !! s = None →
        SequentialStringIndexer.__getitem__ self (KSym s) = Raise KeyError).
Proof.
  split_and!.
  - intros k Hk. unfold SequentialStringIndexer.__getitem__, py_index.
    destruct (Z.ltb_spec k 0); [lia|].
    destruct (Z.leb_spec 0 k); [|lia].
    destruct (Z.ltb_spec k (Z.of_nat (length (SequentialStringIndexer._i2s self)))); [lia|done].
  - intros k Hk. unfold SequentialStringIndexer.__getitem__, py_index.
    destruct (Z.ltb_spec k 0); [|lia].
    destruct (Z.leb_spec 0 (k + Z.of_nat (length (SequentialStringIndexer._i2s self)))); [lia|done].
  - intros s Hs. unfold SequentialStringIndexer.__getitem__. by rewrite Hs.
Qed.

(** [get] with a negative index: Python's list indexing counts from the
    end, and fails below [-len]. *)
Lemma SequentialStringIndexer_get_negative self d k :
  k < 0 →
  SequentialStringIndexer.get self (KInt k) d =
    match SequentialStringIndexer._i2s self
            !! Z.to_nat (k + Z.of_nat (length (SequentialStringIndexer._i2s self))) with
    | Some s =>
        if 0 <=? k + Z.of_nat (length (SequentialStringIndexer._i2s self))
        then Ok (VSym s) else Raise IndexError
    | None => Raise IndexError
    end.
Proof.
  intros Hk. unfold SequentialStringIndexer.get, py_index.
  set (n := Z.of_nat (length (SequentialStringIndexer._i2s self))).
  destruct (Z.geb_spec k n); [lia|].
  destruct (Z.ltb_spec k 0); [|lia].
  destruct (Z.leb_spec 0 (k + n)); simpl.
  - destruct (Z.ltb_spec (k + n) n); [|lia].
    by destruct (_ !! _).
  - by destruct (_ !! _).
Qed.

(** C10.  Membership of an integer [k] asserts [k > 0]: it raises
    [AssertionError] for every [k <= 0], index 0 included, and answers
    [k < len] otherwise; yet 0 is the index that [add] gives to the first
    symbol of a new indexer, whose membership test by index then raises. *)
Theorem SequentialStringIndexer_contains_int self k cutoff s :
  SequentialStringIndexer.__contains__ self (KInt k) =
    (if k >? 0
     then Ok (k <? Z.of_nat (length (SequentialStringIndexer._i2s self)))
     else Raise AssertionError) ∧
  SequentialStringIndexer.__contains__ self (KInt 0) = Raise AssertionError ∧
  ∃ first,
    SequentialStringIndexer.add (SequentialStringIndexer.__init__ cutoff) s
      = Ok first ∧
    SequentialStringIndexer.__getitem__ first (KSym s) = Ok (VInt 0) ∧
    SequentialStringIndexer.__getitem__ first (KInt 0) = Ok (VSym s) ∧
    SequentialStringIndexer.__contains__ first (KInt 0) = Raise AssertionError.
Proof.
  split_and!.
  - unfold SequentialStringIndexer.__contains__. by destruct (k >? 0).
  - done.
  - destruct cutoff as [c|]; eexists; (split; [reflexivity|]);
      cbn; rewrite ?lookup_insert_eq; done.
Qed.

End IndexerLookups.

(** C9.  [get] does not return the default for every out-of-range index:
    on an indexer that holds the one symbol "a", [get(-2, default)] raises
    [IndexError] and [get(-1, default)] returns "a"; an index at or beyond
    the length and an unknown symbol do return the default, and raw
    indexing raises on each of these misses. *)
Theorem SequentialStringIndexer_get_negative_index :
  ∃ self,
    SequentialStringIndexer.add (SequentialStringIndexer.__init__ None) "a"%string
      = Ok self ∧
    SequentialStringIndexer.get self (KInt (-2)) (VSym "dflt"%string)
      = Raise IndexError ∧
    SequentialStringIndexer.get self (KInt (-1)) (VSym "dflt"%string)
      = Ok (VSym "a"%string) ∧
    SequentialStringIndexer.get self (KInt 1) (VSym "dflt"%string)
      = Ok (VSym "dflt"%string) ∧
    SequentialStringIndexer.get self (KSym "b"%string) (VSym "dflt"%string)
      = Ok (VSym "dflt"%string) ∧
    SequentialStringIndexer.__getitem__ self (KInt 1) = Raise IndexError ∧
    SequentialStringIndexer.__getitem__ self (KInt (-2)) = Raise IndexError ∧
    SequentialStringIndexer.__getitem__ self (KSym "b"%string) = Raise KeyError.
Proof. eexists. split; [reflexivity|]. by vm_compute. Qed.

(** ** The sparse feature vector *)

Section FeatureMap.
Context {Sym : Type} `{Countable Sym}.
Implicit Types (indexer : SequentialStringIndexer.t Sym)
  (self : IndexedFeatureMap.t Sym) (s : Sym) (v : Z).

(** What [_map] holds differs from the default, whatever is assigned. *)
Lemma IndexedFeatureMap_setitem_stores_non_default indexer self k v indexer' self' :
  IndexedFeatureMap.__setitem__ indexer self k v = Ok (indexer', self') →
  IndexedFeatureMap._default self' = IndexedFeatureMap._default self ∧
  ((∀ i w, IndexedFeatureMap._map self !! i = Some w →
           w ≠ IndexedFeatureMap._default self) →
   ∀ i w, IndexedFeatureMap._map self' !! i = Some w →
          w ≠ IndexedFeatureMap._default self').
Proof.
  unfold IndexedFeatureMap.__setitem__. intros Hset.
  destruct (if negb _ then _ else _) as [[|]| |]; simpl in Hset; [|by simplify_eq..].
  destruct (IndexedStringSet.setdefault _ _ _) as [[[ix st] i]| |];
    simpl in Hset; [|done..].
  case_bool_decide; simplify_eq/=; (split; [done|]); [|done].
  intros Hinv j w. rewrite lookup_insert. case_decide; naive_solver.
Qed.

(** A feature that only ever received the default has no entry: an
    assignment of the default leaves [_map] as it was. *)
Lemma IndexedFeatureMap_setitem_default_keeps_map indexer self k indexer' self' :
  IndexedFeatureMap.__setitem__ indexer self k (IndexedFeatureMap._default self)
    = Ok (indexer', self') →
  IndexedFeatureMap._map self' = IndexedFeatureMap._map self.
Proof.
  unfold IndexedFeatureMap.__setitem__. intros Hset.
  destruct (if negb _ then _ else _) as [[|]| |]; simpl in Hset; [|by simplify_eq..].
  destruct (IndexedStringSet.setdefault _ _ _) as [[[ix st] i]| |];
    simpl in Hset; [|done..].
  rewrite bool_decide_false in Hset by naive_solver. by simplify_eq/=.
Qed.

(** C8.  On a frozen indexer, assigning to a feature name that the
    indexer does not hold raises nothing and returns the indexer and the
    feature map (active indices, stored values, default) as they were. *)
Theorem IndexedFeatureMap_setitem_frozen_unknown indexer self s v :
  SequentialStringIndexer.is_frozen indexer = true →
  SequentialStringIndexer._s2i indexer !! s = None →
  IndexedFeatureMap.__setitem__ indexer self (KSym s) v = Ok (indexer, self).
Proof.
  intros Hfrozen Hs. unfold IndexedFeatureMap.__setitem__.
  rewrite Hfrozen. simpl. rewrite Hs.
  rewrite bool_decide_false by (by intros [? ?]). done.
Qed.

End FeatureMap.

Lemma IndexedFeatureMap_setitem_frozen_unknown_witness :
  ∃ indexer,
    abc_frozen = Ok indexer ∧
    IndexedFeatureMap.__setitem__ indexer (IndexedFeatureMap.__init__ 1)
      (KSym "d"%string) 1
    = Ok (indexer, IndexedFeatureMap.__init__ 1).
Proof.
  eexists. split; [reflexivity|].
  apply IndexedFeatureMap_setitem_frozen_unknown; reflexivity.
Defined.

(** C7.  The stored values do not follow the most recent assignment: on a
    new indexer and a feature map of default 1, [fm["f"] = 5] followed by
    [fm["f"] = 1] leaves the entry 5 under the index 0 of "f", and
    [items()] yields the pair (0, 5). *)
Theorem IndexedFeatureMap_default_after_override :
  ∃ indexer self,
    IndexedFeatureMap.setitems (SequentialStringIndexer.__init__ None)
      (IndexedFeatureMap.__init__ 1)
      [(KSym "f"%string, 5); (KSym "f"%string, 1)] = Ok (indexer, self) ∧
    SequentialStringIndexer.__getitem__ indexer (KSym "f"%string) = Ok (VInt 0) ∧
    IndexedFeatureMap._default self = 1 ∧
    IndexedFeatureMap._map self !! VInt 0 = Some 5 ∧
    IndexedFeatureMap.items self = [(0, 5)].
Proof. do 2 eexists. split; [reflexivity|]. by vm_compute. Qed.

(** ** The feature alphabet: indices and the cutoff *)

Section ListOrder.
Context {A : Type}.
Implicit Types (l : list A).

Lemma sublist_fmap_snd {B} (l1 l2 : list (B * A)) :
  l1 `sublist_of` l2 → l1.*2 `sublist_of` l2.*2.
Proof. induction 1; simpl; by constructor. Qed.

(** A sublist of a duplicate-free list lists its items in the same
    order. *)
Lemma sublist_lookup_order l1 l2 :
  l1 `sublist_of` l2 → NoDup l2 →
  ∀ j1 j2 i1 i2 x1 x2,
    l1 !! j1 = Some x1 → l1 !! j2 = Some x2 →
    l2 !! i1 = Some x1 → l2 !! i2 = Some x2 →
    (j1 < j2)%nat → (i1 < i2)%nat.
Proof.
  induction 1 as [|x l1 l2 Hsub IH|x l1 l2 Hsub IH]; intros Hnd.
  - intros ? ? ? ? ? ? Hj. by rewrite lookup_nil in Hj.
  - apply NoDup_cons in Hnd as [Hx Hnd].
    assert (Hin2 : ∀ i y, l2 !! i = Some y → y ≠ x).
    { intros i y Hi ->. apply Hx, list_elem_of_lookup. eauto. }
    assert (Hin1 : ∀ j y, l1 !! j = Some y → y ≠ x).
    { intros j y Hj ->. apply Hx. eapply elem_of_sublist; [|done].
      apply list_elem_of_lookup. eauto. }
    intros [|j1] [|j2] [|i1] [|i2] x1 x2 Hj1 Hj2 Hi1 Hi2 Hlt;
      simpl in *; try lia; try (by exfalso; naive_solver).
    apply ->Nat.succ_lt_mono. eapply (IH Hnd j1 j2); eauto. lia.
  - apply NoDup_cons in Hnd as [Hx Hnd].
    assert (Hin1 : ∀ j y, l1 !! j = Some y → y ≠ x).
    { intros j y Hj ->. apply Hx. eapply elem_of_sublist; [|done].
      apply list_elem_of_lookup. eauto. }
    intros j1 j2 [|i1] [|i2] x1 x2 Hj1 Hj2 Hi1 Hi2 Hlt;
      simpl in *; try (by exfalso; naive_solver).
    apply ->Nat.succ_lt_mono. eapply (IH Hnd j1 j2); eauto.
Qed.

Lemma enumerate_snd l : (enumerate l).*2 = l.
Proof.
  unfold enumerate. rewrite fmap_imap.
  rewrite (imap_ext _ (const id)) by done.
  by rewrite imap_const, list_fmap_id.
Qed.

Lemma elem_of_enumerate l i x :
  (i, x) ∈ enumerate l ↔ 0 ≤ i ∧ l !! Z.to_nat i = Some x.
Proof.
  unfold enumerate. rewrite elem_of_lookup_imap. split.
  - intros (n & y & [= -> ->] & Hn). rewrite Nat2Z.id. split; [lia|done].
  - intros [Hi Hx]. exists (Z.to_nat i), x. split; [|done]. f_equal. lia.
Qed.

End ListOrder.

Section IndexerOrder.
Context {Sym : Type} `{Countable Sym}.
Implicit Types (self : SequentialStringIndexer.t Sym) (s : Sym)
  (l : list Sym) (counts : gmap Z Z).

Lemma index_of_strings_snoc l s :
  SequentialStringIndexer.index_of_strings (l ++ [s]) =
    <[s := Z.of_nat (length l)]> (SequentialStringIndexer.index_of_strings l).
Proof.
  unfold SequentialStringIndexer.index_of_strings, enumerate.
  rewrite imap_app, foldl_app. simpl. by rewrite Nat.add_0_r.
Qed.

Lemma snoc_lookup_in_order (m : gmap Sym Z) l s :
  (∀ x i, m !! x = Some i ↔ 0 ≤ i ∧ l !! Z.to_nat i = Some x) →
  m !! s = None →
  ∀ x i, <[s := Z.of_nat (length l)]> m !! x = Some i ↔
         0 ≤ i ∧ (l ++ [s]) !! Z.to_nat i = Some x.
Proof.
  intros Hm Hs x i. rewrite lookup_insert, lookup_snoc_Some.
  case_decide as Hx; [subst x|].
  - split.
    + intros [= <-]. split; [lia|]. right. split; [lia|done].
    + intros [Hi [[_ Hl]|[Hl _]]].
      * assert (m !! s = Some i) as Hsi by (by apply Hm). congruence.
      * f_equal. lia.
  - rewrite Hm. split.
    + intros [Hi Hl]. split; [done|]. left. split; [|done].
      by eapply lookup_lt_Some.
    + intros [Hi [[_ Hl]|[_ Hl]]]; [done|]. by destruct Hx.
Qed.

Lemma index_of_strings_lookup l :
  NoDup l →
  ∀ s j, SequentialStringIndexer.index_of_strings l !! s = Some j ↔
         0 ≤ j ∧ l !! Z.to_nat j = Some s.
Proof.
  induction l as [|x l IH] using rev_ind; intros Hnd.
  - intros s j. unfold SequentialStringIndexer.index_of_strings. simpl.
    rewrite lookup_empty, lookup_nil. split; [done|by intros [_ ?]].
  - apply NoDup_app in Hnd as (Hnd & Hx & _).
    rewrite index_of_strings_snoc. apply snoc_lookup_in_order; [by apply IH|].
    destruct (_ !! x) as [i|] eqn:Hi; [|done].
    apply IH in Hi as [_ Hi]; [|done].
    destruct (Hx x); [|apply list_elem_of_here].
    apply list_elem_of_lookup. eauto.
Qed.

Lemma indexed_in_order_NoDup self :
  indexed_in_order self → NoDup (SequentialStringIndexer._i2s self).
Proof.
  intros Hio. apply NoDup_alt. intros i j x Hi Hj.
  assert (SequentialStringIndexer._s2i self !! x = Some (Z.of_nat i)) as H1.
  { apply Hio. rewrite Nat2Z.id. split; [lia|done]. }
  assert (SequentialStringIndexer._s2i self !! x = Some (Z.of_nat j)) as H2.
  { apply Hio. rewrite Nat2Z.id. split; [lia|done]. }
  rewrite H1 in H2. injection H2. lia.
Qed.

Lemma above_cutoff_sublist l counts C :
  SequentialStringIndexer.above_cutoff l counts C `sublist_of` l.
Proof.
  unfold SequentialStringIndexer.above_cutoff.
  rewrite <- (enumerate_snd l) at 2. apply sublist_fmap_snd, sublist_filter.
Qed.

Lemma elem_of_above_cutoff l counts C s :
  s ∈ SequentialStringIndexer.above_cutoff l counts C ↔
  ∃ i, 0 ≤ i ∧ l !! Z.to_nat i = Some s ∧
       C ≤ SequentialStringIndexer.count counts i.
Proof.
  unfold SequentialStringIndexer.above_cutoff.
  rewrite list_elem_of_fmap. split.
  - intros ([i x] & -> & Hin). apply list_elem_of_filter in Hin as [HP Hin].
    apply elem_of_enumerate in Hin as [Hi Hl]. simpl. eauto.
  - intros (i & Hi & Hl & HC). exists (i, s). split; [done|].
    apply list_elem_of_filter. split; [done|]. by apply elem_of_enumerate.
Qed.

End IndexerOrder.

Section IndexerCalls.
Context {Sym : Type} `{Countable Sym}.
Implicit Types (self : SequentialStringIndexer.t Sym) (s : Sym).

(** [add] on an indexer that was never frozen: it succeeds, and either
    appends the new symbol under the next index or leaves both tables. *)
Lemma SequentialStringIndexer_add_unfrozen cutoff self s :
  unfrozen cutoff self →
  ∃ self',
    SequentialStringIndexer.add self s = Ok self' ∧ unfrozen cutoff self' ∧
    ((SequentialStringIndexer._s2i self !! s = None ∧
      SequentialStringIndexer._s2i self' =
        <[s := Z.of_nat (length (SequentialStringIndexer._i2s self))]>
          (SequentialStringIndexer._s2i self) ∧
      SequentialStringIndexer._i2s self' =
        SequentialStringIndexer._i2s self ++ [s]) ∨
     (is_Some (SequentialStringIndexer._s2i self !! s) ∧
      SequentialStringIndexer._s2i self' = SequentialStringIndexer._s2i self ∧
      SequentialStringIndexer._i2s self' = SequentialStringIndexer._i2s self)).
Proof.
  intros (Hfr & Hcut & Hcounts).
  destruct self as [s2i i2s fr cut cnts ln]; simpl in *; subst.
  unfold SequentialStringIndexer.add, SequentialStringIndexer.__contains__,
    SequentialStringIndexer.is_frozen, SequentialStringIndexer.counts_attr,
    SequentialStringIndexer.__getitem__, unfrozen.
  cbn [SequentialStringIndexer._s2i SequentialStringIndexer._i2s
       SequentialStringIndexer._frozen SequentialStringIndexer._cutoff
       SequentialStringIndexer._counts negb andb].
  rewrite result_bind_Ok.
  destruct (s2i !! s) as [i|] eqn:Hs;
    (destruct cutoff as [c|];
     [destruct Hcounts as [[counts ->] _]; [by eexists|]|]);
    cbn; (eexists; split; [reflexivity|]); cbn;
    (split; [split_and!; try done; split; intros; by eexists|]);
    first [by left | right; split_and!; [by eexists|done|done]].
Qed.

Lemma SequentialStringIndexer_add_in_order cutoff self s self' :
  unfrozen cutoff self → indexed_in_order self →
  SequentialStringIndexer.add self s = Ok self' →
  unfrozen cutoff self' ∧ indexed_in_order self'.
Proof.
  intros Hun Hio Hadd.
  destruct (SequentialStringIndexer_add_unfrozen cutoff self s Hun)
    as (self1 & Hadd1 & Hun1 & Hcase).
  rewrite Hadd in Hadd1. injection Hadd1 as <-. split; [done|].
  unfold indexed_in_order.
  destruct Hcase as [(Hs & -> & ->)|(_ & -> & ->)]; [|done].
  by apply snoc_lookup_in_order.
Qed.

Lemma SequentialStringIndexer_setcount_in_order cutoff self k n self' :
  unfrozen cutoff self → indexed_in_order self →
  SequentialStringIndexer.setcount self k n = Ok self' →
  unfrozen cutoff self' ∧ indexed_in_order self'.
Proof.
  intros (Hfr & Hcut & Hcounts) Hio. unfold SequentialStringIndexer.setcount.
  destruct (match k with KInt _ => _ | KSym _ => _ end) as [i| |]; [|done..].
  rewrite result_bind_Ok. unfold SequentialStringIndexer.counts_attr.
  destruct (SequentialStringIndexer._counts self) as [counts|] eqn:Hc; [|done].
  rewrite result_bind_Ok. intros [= <-]. split; [|done].
  split_and!; [done..|]. cbn. rewrite Hcounts. split; intros; by eexists.
Qed.

(** The calls made before freezing keep the indexer unfrozen and its two
    tables in agreement. *)
Lemma SequentialStringIndexer_calls_in_order cutoff cs : ∀ self self',
  unfrozen cutoff self → indexed_in_order self →
  SequentialStringIndexer.calls self cs = Ok self' →
  unfrozen cutoff self' ∧ indexed_in_order self'.
Proof.
  induction cs as [|c cs IH]; intros self self' Hun Hio Hcalls.
  - by injection Hcalls as <-.
  - cbn [SequentialStringIndexer.calls] in Hcalls.
    destruct c as [s|s|k n].
    + destruct (SequentialStringIndexer.add self s) as [self1| |] eqn:Hadd;
        [|done..].
      rewrite result_bind_Ok in Hcalls.
      destruct (SequentialStringIndexer_add_in_order _ _ _ _ Hun Hio Hadd).
      by eapply IH.
    + unfold SequentialStringIndexer.setdefault in Hcalls.
      destruct (SequentialStringIndexer.add self s) as [self1| |] eqn:Hadd;
        [|done..].
      rewrite result_bind_Ok in Hcalls.
      destruct (SequentialStringIndexer_add_in_order _ _ _ _ Hun Hio Hadd).
      destruct (SequentialStringIndexer.__getitem__ self1 (KSym s)); [|done..].
      rewrite !result_bind_Ok in Hcalls. by eapply IH.
    + destruct (SequentialStringIndexer.setcount self k n) as [self1| |] eqn:Hset;
        [|done..].
      rewrite result_bind_Ok in Hcalls.
      destruct (SequentialStringIndexer_setcount_in_order _ _ _ _ _ Hun Hio Hset).
      by eapply IH.
Qed.

Lemma SequentialStringIndexer_init_in_order cutoff :
  unfrozen cutoff (SequentialStringIndexer.__init__ (Sym:=Sym) cutoff) ∧
  indexed_in_order (SequentialStringIndexer.__init__ (Sym:=Sym) cutoff).
Proof.
  split.
  - split_and!; [done..|]. destruct cutoff; cbn; [split; intros; by eexists|done].
  - intros s i. cbn. rewrite lookup_empty, lookup_nil.
    split; [done|by intros [_ ?]].
Qed.

(** [freeze] on an indexer with a cutoff that still has its counts. *)
Lemma SequentialStringIndexer_freeze_cutoff self C counts :
  SequentialStringIndexer._cutoff self = Some C →
  SequentialStringIndexer._counts self = Some counts →
  let i2s := SequentialStringIndexer.above_cutoff
               (SequentialStringIndexer._i2s self) counts C in
  SequentialStringIndexer.freeze self =
    Ok {| SequentialStringIndexer._s2i :=
            SequentialStringIndexer.index_of_strings i2s;
          SequentialStringIndexer._i2s := i2s;
          SequentialStringIndexer._frozen := true;
          SequentialStringIndexer._cutoff := Some C;
          SequentialStringIndexer._counts := None;
          SequentialStringIndexer._len := Some (Z.of_nat (length i2s)) |}.
Proof.
  intros Hcut Hc. unfold SequentialStringIndexer.freeze,
    SequentialStringIndexer.counts_attr. by rewrite Hcut, Hc.
Qed.

(** No call made before freezing changes an index in use. *)
Lemma SequentialStringIndexer_calls_stable cutoff cs : ∀ self self',
  unfrozen cutoff self →
  SequentialStringIndexer.calls self cs = Ok self' →
  ∀ s i, SequentialStringIndexer._s2i self !! s = Some i →
         SequentialStringIndexer._s2i self' !! s = Some i.
Proof.
  assert (Hadd : ∀ self s self1,
            unfrozen cutoff self →
            SequentialStringIndexer.add self s = Ok self1 →
            unfrozen cutoff self1 ∧
            ∀ s' i, SequentialStringIndexer._s2i self !! s' = Some i →
                    SequentialStringIndexer._s2i self1 !! s' = Some i).
  { intros self s self1 Hun Hadd.
    destruct (SequentialStringIndexer_add_unfrozen cutoff self s Hun)
      as (self2 & Hadd2 & Hun2 & Hcase).
    rewrite Hadd in Hadd2. injection Hadd2 as <-. split; [done|].
    intros s' i Hs'.
    destruct Hcase as [(Hs & -> & _)|(_ & -> & _)]; [|done].
    rewrite lookup_insert_ne; [done|]. intros ->. congruence. }
  induction cs as [|c cs IH]; intros self self' Hun Hcalls s0 i0 Hs0.
  - by injection Hcalls as <-.
  - cbn [SequentialStringIndexer.calls] in Hcalls.
    destruct c as [s|s|k n].
    + destruct (SequentialStringIndexer.add self s) as [self1| |] eqn:Hadd1;
        [|done..].
      rewrite result_bind_Ok in Hcalls.
      destruct (Hadd _ _ _ Hun Hadd1) as [Hun1 Hst]. eapply IH; eauto.
    + unfold SequentialStringIndexer.setdefault in Hcalls.
      destruct (SequentialStringIndexer.add self s) as [self1| |] eqn:Hadd1;
        [|done..].
      rewrite result_bind_Ok in Hcalls.
      destruct (Hadd _ _ _ Hun Hadd1) as [Hun1 Hst].
      destruct (SequentialStringIndexer.__getitem__ self1 (KSym s)); [|done..].
      rewrite !result_bind_Ok in Hcalls. eapply IH; eauto.
    + destruct (SequentialStringIndexer.setcount self k n) as [self1| |] eqn:Hset;
        [|done..].
      rewrite result_bind_Ok in Hcalls.
      assert (unfrozen cutoff self1 ∧
              SequentialStringIndexer._s2i self1 =
                SequentialStringIndexer._s2i self) as [Hun1 Heq].
      { destruct Hun as (Hfr & Hcut & Hcounts).
        unfold SequentialStringIndexer.setcount in Hset.
        destruct (match k with KInt _ => _ | KSym _ => _ end) as [i| |];
          [|done..].
        rewrite result_bind_Ok in Hset.
        unfold SequentialStringIndexer.counts_attr in Hset.
        destruct (SequentialStringIndexer._counts self) as [counts|] eqn:Hc;
          [|done].
        rewrite result_bind_Ok in Hset. injection Hset as <-.
        split; [|done]. split_and!; [done..|]. cbn. rewrite Hcounts.
        split; intros; by eexists. }
      eapply IH; eauto. by rewrite Heq.
Qed.

(** C6.  Let [self] be an indexer made with a cutoff setting and changed
    only by [add], [setdefault] and [setcount].  Its indices are the
    positions 0, 1, ... in the order of insertion.  [add] gives a symbol
    that is not yet indexed the next index, which is greater than every
    index in use, and no later call before [freeze] changes an index in
    use.  With a cutoff [C],
    [freeze] succeeds and the frozen indexer again uses the indices
    0, 1, ... consecutively; its symbols are those whose count before
    freezing was at least [C]; and two surviving symbols are ordered as
    they were before. *)
Theorem SequentialStringIndexer_indices_and_cutoff cutoff cs self :
  SequentialStringIndexer.calls (SequentialStringIndexer.__init__ cutoff) cs
    = Ok self →
  indexed_in_order self ∧
  (∀ s, ∃ self',
     SequentialStringIndexer.add self s = Ok self' ∧
     (∀ s' i, SequentialStringIndexer._s2i self !! s' = Some i →
              SequentialStringIndexer._s2i self' !! s' = Some i ∧
              i < Z.of_nat (length (SequentialStringIndexer._i2s self))) ∧
     (SequentialStringIndexer._s2i self !! s = None →
      SequentialStringIndexer._s2i self' !! s =
        Some (Z.of_nat (length (SequentialStringIndexer._i2s self))))) ∧
  (∀ cs' self' s i,
     SequentialStringIndexer.calls self cs' = Ok self' →
     SequentialStringIndexer._s2i self !! s = Some i →
     SequentialStringIndexer._s2i self' !! s = Some i) ∧
  (∀ C, cutoff = Some C →
     ∃ counts frozen,
       SequentialStringIndexer._counts self = Some counts ∧
       SequentialStringIndexer.freeze self = Ok frozen ∧
       SequentialStringIndexer.is_frozen frozen = true ∧
       indexed_in_order frozen ∧
       (∀ s, is_Some (SequentialStringIndexer._s2i frozen !! s) ↔
             ∃ i, SequentialStringIndexer._s2i self !! s = Some i ∧
                  C ≤ SequentialStringIndexer.count counts i) ∧
       (∀ s1 s2 i1 i2 j1 j2,
          SequentialStringIndexer._s2i self !! s1 = Some i1 →
          SequentialStringIndexer._s2i self !! s2 = Some i2 →
          SequentialStringIndexer._s2i frozen !! s1 = Some j1 →
          SequentialStringIndexer._s2i frozen !! s2 = Some j2 →
          (i1 < i2 ↔ j1 < j2))).
Proof.
  intros Hcalls.
  destruct (SequentialStringIndexer_init_in_order cutoff) as [Hun0 Hio0].
  destruct (SequentialStringIndexer_calls_in_order _ _ _ _ Hun0 Hio0 Hcalls)
    as [Hun Hio].
  split; [done|]. split; [|split].
  - intros s.
    destruct (SequentialStringIndexer_add_unfrozen cutoff self s Hun)
      as (self' & Hadd & _ & Hcase).
    exists self'. split; [done|]. split.
    + intros s' i Hs'. split.
      * destruct Hcase as [(Hs & -> & _)|(_ & -> & _)]; [|done].
        rewrite lookup_insert_ne; [done|]. intros ->. congruence.
      * apply Hio in Hs' as [Hi Hl]. apply lookup_lt_Some in Hl. lia.
    + intros Hs. destruct Hcase as [(_ & -> & _)|([? ?] & _)]; [|congruence].
      by rewrite lookup_insert_eq.
  - intros cs' self' s i Hcalls' Hs.
    by eapply SequentialStringIndexer_calls_stable.
  - intros C ->. destruct Hun as (_ & Hcut & Hcounts).
    destruct Hcounts as [[counts Hc] _]; [by eexists|].
    pose proof (SequentialStringIndexer_freeze_cutoff self C counts Hcut Hc)
      as Hfreeze. cbv zeta in Hfreeze.
    set (l := SequentialStringIndexer._i2s self) in *.
    set (l' := SequentialStringIndexer.above_cutoff l counts C) in *.
    pose proof (indexed_in_order_NoDup self Hio) as Hnd. fold l in Hnd.
    pose proof (above_cutoff_sublist l counts C) as Hsub. fold l' in Hsub.
    pose proof (sublist_NoDup _ _ Hnd Hsub) as Hnd'.
    pose proof (index_of_strings_lookup l' Hnd') as Hio'.
    eexists counts, _. split; [done|]. split; [exact Hfreeze|].
    split; [done|]. split; [exact Hio'|]. cbn. split.
    + intros s. split.
      * intros [j Hj]. apply Hio' in Hj as [Hj Hl'].
        assert (s ∈ l') as Hin by (apply list_elem_of_lookup; eauto).
        apply elem_of_above_cutoff in Hin as (i & Hi & Hl & HC).
        exists i. split; [|done]. by apply Hio.
      * intros (i & Hi & HC). apply Hio in Hi as [Hi Hl].
        assert (s ∈ l') as Hin.
        { apply elem_of_above_cutoff. eauto. }
        apply list_elem_of_lookup in Hin as [j Hj]. exists (Z.of_nat j).
        apply Hio'. rewrite Nat2Z.id. split; [lia|done].
    + intros s1 s2 i1 i2 j1 j2 H1 H2 H1' H2'.
      apply Hio in H1 as [Hi1 Hl1]. apply Hio in H2 as [Hi2 Hl2].
      apply Hio' in H1' as [Hj1 Hl1']. apply Hio' in H2' as [Hj2 Hl2'].
      pose proof (sublist_lookup_order _ _ Hsub Hnd) as Hord.
      split; intros Hlt.
      * destruct (Z.lt_trichotomy j1 j2) as [|[->|Hgt]]; [done| |].
        { rewrite Hl1' in Hl2'. injection Hl2' as ->.
          pose proof (NoDup_lookup _ _ _ _ Hnd Hl1 Hl2). lia. }
        pose proof (Hord _ _ _ _ _ _ Hl2' Hl1' Hl2 Hl1 ltac:(lia)). lia.
      * pose proof (Hord _ _ _ _ _ _ Hl1' Hl2' Hl1 Hl2 ltac:(lia)). lia.
Qed.

End IndexerCalls.

Lemma SequentialStringIndexer_indices_and_cutoff_witness :
  SequentialStringIndexer.calls
    (SequentialStringIndexer.__init__ (Some 2)) sample_calls
    = Ok sample_indexer ∧
  indexed_in_order sample_indexer ∧
  ∃ frozen,
    SequentialStringIndexer.freeze sample_indexer = Ok frozen ∧
    indexed_in_order frozen.
Proof.
  assert (SequentialStringIndexer.calls
            (SequentialStringIndexer.__init__ (Some 2)) sample_calls
          = Ok sample_indexer) as Hcalls by (by vm_compute).
  destruct (SequentialStringIndexer_indices_and_cutoff (Some 2) sample_calls
              sample_indexer Hcalls) as (Hin & _ & _ & Hfreeze).
  destruct (Hfreeze 2 eq_refl) as (counts & frozen & _ & Hfr & _ & Hin' & _).
  split; [exact Hcalls|]. split; [exact Hin|].
  exists frozen. split; [exact Hfr|exact Hin'].
Defined.

(** ** Computations on the module state *)

Lemma M_bind_run {A B} (m : M A) (f : A → M B) g :
  (m ≫= f) g =
    match m g with
    | (Ok a, g') => f a g'
    | (Raise e, g') => (Raise e, g')
    | (OutOfFuel, g') => (OutOfFuel, g')
    end.
Proof. reflexivity. Qed.

Lemma M_bind_preserves (P : Globals → Prop) {A B} (m : M A) (f : A → M B) g :
  P (m g).2 → (∀ a g', P g' → P (f a g').2) → P ((m ≫= f) g).2.
Proof.
  intros Hm Hf. rewrite M_bind_run.
  destruct (m g) as [[a|e|] g']; simpl in *; eauto.
Qed.

Lemma for_each_preserves (P : Globals → Prop) {A} (l : list A) body :
  (∀ x g, P g → P (body x g).2) → ∀ g, P g → P (for_each l body g).2.
Proof.
  intros Hbody. induction l as [|x l IH]; intros g Hg; [done|].
  cbn [for_each]. apply M_bind_preserves; eauto.
Qed.

Lemma fuel_free_ret {A} (a : A) : fuel_free (mret a).
Proof. by intros g. Qed.

Lemma fuel_free_lift {A} (r : result A) : r ≠ OutOfFuel → fuel_free (lift r).
Proof. by intros Hr g. Qed.

Lemma fuel_free_get_globals : fuel_free get_globals.
Proof. by intros g. Qed.

Lemma fuel_free_put_globals g' : fuel_free (put_globals g').
Proof. by intros g. Qed.

Lemma fuel_free_bind {A B} (m : M A) (f : A → M B) :
  fuel_free m → (∀ a, fuel_free (f a)) → fuel_free (m ≫= f).
Proof.
  intros Hm Hf g. rewrite M_bind_run. specialize (Hm g).
  destruct (m g) as [[a|e|] g']; [apply Hf|done..].
Qed.

Lemma fuel_free_for_each {A} (l : list A) body :
  (∀ x, fuel_free (body x)) → fuel_free (for_each l body).
Proof.
  intros Hbody. induction l as [|x l IH]; [apply fuel_free_ret|].
  cbn [for_each]. by apply fuel_free_bind.
Qed.

Lemma py_assert_fuel_free c : py_assert c ≠ OutOfFuel.
Proof. by destruct c. Qed.

(** ** Loading the sense data *)

Lemma py_index_outcome {A} (l : list A) k :
  (∃ x, py_index l k = Ok x) ∨ py_index l k = Raise IndexError.
Proof. unfold py_index. repeat case_match; eauto. Qed.

Lemma py_index_fuel_free {A} (l : list A) k : py_index l k ≠ OutOfFuel.
Proof. by destruct (py_index_outcome l k) as [[x ->]| ->]. Qed.

Lemma add_possible_sense_run word label g :
  add_possible_sense word label g =
    (Ok tt,
     {| senseTrie := senseTrie g;
        senseCountMap := senseCountMap g;
        possibleSensesMap :=
          <[word := {[label]} ∪ default ∅ (possibleSensesMap g !! word)]>
            (possibleSensesMap g) |}).
Proof. reflexivity. Qed.

(** *** The original format *)

Lemma _addMostFrequentSense_fuel_free phrase simplePOS sense numSenses :
  fuel_free (_addMostFrequentSense phrase simplePOS sense numSenses).
Proof.
  unfold _addMostFrequentSense.
  apply fuel_free_bind; [apply fuel_free_get_globals|]. intros g0.
  destruct (senseTrie g0) as [trie|]; [|by apply fuel_free_lift].
  apply fuel_free_bind; [apply fuel_free_lift, Trie_contains_fuel_free|].
  intros known. apply fuel_free_bind; [|intros; apply fuel_free_put_globals].
  destruct (negb known); [apply fuel_free_lift, Trie_setitem_fuel_free|].
  apply fuel_free_bind; [apply fuel_free_lift, Trie_get_fuel_free|].
  intros [d|]; apply fuel_free_lift; [apply Trie_setitem_fuel_free|done].
Qed.

Lemma _loadSenseFileOriginalFormat_fuel_free senseFile shortPOS :
  fuel_free (_loadSenseFileOriginalFormat senseFile shortPOS).
Proof.
  unfold _loadSenseFileOriginalFormat. cbv zeta.
  apply fuel_free_bind.
  { destruct senseFile; [apply fuel_free_ret|by apply fuel_free_lift]. }
  intros senseF. apply fuel_free_for_each. intros ln.
  destruct (String.eqb _ _); [apply fuel_free_ret|].
  apply fuel_free_bind; [apply fuel_free_lift, py_index_fuel_free|]. intros sense.
  apply fuel_free_bind; [apply fuel_free_lift, py_index_fuel_free|]. intros parts0.
  apply fuel_free_bind; [apply _addMostFrequentSense_fuel_free|]. intros _.
  apply fuel_free_for_each. intros i. apply fuel_free_for_each. intros j.
  apply fuel_free_bind; [apply fuel_free_lift, py_index_fuel_free|]. intros word.
  apply fuel_free_bind; [apply fuel_free_lift, py_index_fuel_free|]. intros ps.
  intros g. by rewrite add_possible_sense_run.
Qed.

Lemma loadSenseDataOriginalFormat_fuel_free files :
  fuel_free (loadSenseDataOriginalFormat files).
Proof.
  unfold loadSenseDataOriginalFormat.
  apply fuel_free_bind; [apply fuel_free_get_globals|]. intros g0.
  apply fuel_free_bind; [apply fuel_free_lift, py_assert_fuel_free|]. intros _.
  apply fuel_free_bind; [apply fuel_free_put_globals|]. intros _.
  apply fuel_free_bind; [apply fuel_free_lift, py_assert_fuel_free|]. intros _.
  apply fuel_free_bind; [apply fuel_free_lift, py_assert_fuel_free|]. intros _.
  apply fuel_free_bind; [apply _loadSenseFileOriginalFormat_fuel_free|]. intros _.
  apply _loadSenseFileOriginalFormat_fuel_free.
Qed.

(** Once created, the trie stays. *)
Lemma _addMostFrequentSense_keeps_trie phrase simplePOS sense numSenses g :
  is_Some (senseTrie g) →
  is_Some (senseTrie (_addMostFrequentSense phrase simplePOS sense numSenses g).2).
Proof.
  intros Hg. unfold _addMostFrequentSense.
  rewrite M_bind_run. unfold get_globals at 1. cbv beta iota.
  destruct Hg as [trie Ht]. rewrite Ht.
  apply (M_bind_preserves (λ g, is_Some (senseTrie g))).
  { simpl. rewrite Ht. by eexists. }
  intros known g1 Hg1.
  apply (M_bind_preserves (λ g, is_Some (senseTrie g))).
  - destruct (negb known); [done|].
    apply (M_bind_preserves (λ g, is_Some (senseTrie g))); [done|].
    intros [d|] g2 Hg2; done.
  - intros trie' g2 Hg2. by eexists.
Qed.

Lemma _loadSenseFileOriginalFormat_keeps_trie senseFile shortPOS g :
  is_Some (senseTrie g) →
  is_Some (senseTrie (_loadSenseFileOriginalFormat senseFile shortPOS g).2).
Proof.
  intros Hg. unfold _loadSenseFileOriginalFormat. cbv zeta.
  apply (M_bind_preserves (λ g, is_Some (senseTrie g))).
  { by destruct senseFile. }
  intros senseF g1 Hg1. apply for_each_preserves; [|done].
  clear. intros ln g Hg.
  destruct (String.eqb _ _); [done|].
  apply (M_bind_preserves (λ g, is_Some (senseTrie g))); [done|].
  intros sense g1 Hg1.
  apply (M_bind_preserves (λ g, is_Some (senseTrie g))); [done|].
  intros parts0 g2 Hg2.
  apply (M_bind_preserves (λ g, is_Some (senseTrie g))).
  { by apply _addMostFrequentSense_keeps_trie. }
  intros _ g3 Hg3. apply for_each_preserves; [|done].
  intros i g4 Hg4. apply for_each_preserves; [|done].
  intros j g5 Hg5.
  apply (M_bind_preserves (λ g, is_Some (senseTrie g))); [done|].
  intros word g6 Hg6.
  apply (M_bind_preserves (λ g, is_Some (senseTrie g))); [done|].
  intros ps g7 Hg7. by rewrite add_possible_sense_run.
Qed.

(** [loadSenseDataOriginalFormat] on a state without a trie creates it,
    whatever happens afterwards. *)
Lemma loadSenseDataOriginalFormat_creates_trie files g :
  senseTrie g = None →
  is_Some (senseTrie (loadSenseDataOriginalFormat files g).2).
Proof.
  intros Hg. unfold loadSenseDataOriginalFormat.
  rewrite M_bind_run. unfold get_globals at 1. cbv beta iota.
  rewrite M_bind_run. unfold lift at 1.
  rewrite bool_decide_true by done. cbn [py_assert]. cbv beta iota.
  rewrite M_bind_run. unfold put_globals at 1. cbv beta iota.
  apply (M_bind_preserves (λ g, is_Some (senseTrie g))); [by eexists|].
  intros _ g1 Hg1.
  apply (M_bind_preserves (λ g, is_Some (senseTrie g))); [done|].
  intros _ g2 Hg2.
  apply (M_bind_preserves (λ g, is_Some (senseTrie g))).
  { by apply _loadSenseFileOriginalFormat_keeps_trie. }
  intros _ g3 Hg3. by apply _loadSenseFileOriginalFormat_keeps_trie.
Qed.

(** *** The new format *)

Section NewFormat.
Variable files : Files.

(** No line of a noun or verb file gets past [parts[1].indexOf]: the
    line raises, [IndexError] when it has no second column and
    [AttributeError] otherwise, and nothing is stored. *)
Lemma loadSenseDataNewFormat_line_raises pos ln g :
  ∃ e, loadSenseDataNewFormat_line pos ln g = (Raise e, g).
Proof.
  unfold loadSenseDataNewFormat_line. cbv zeta. rewrite M_bind_run.
  unfold lift at 1.
  destruct (py_index_outcome (str_split "009" (str_drop_last ln)) 1)
    as [[x ->]| ->]; eauto.
Qed.

Lemma loadSenseDataNewFormat_file_outcome pos f g :
  ∃ r, (inF ← gzip_open f; for_each inF (loadSenseDataNewFormat_line pos)) g
       = (r, g) ∧
       (r = Ok tt → f = Some []).
Proof.
  rewrite M_bind_run. destruct f as [[|ln lns]|]; cbn [gzip_open].
  - exists (Ok tt). done.
  - change (@mret M _ _ (ln :: lns) g)
      with (@pair (result (list string)) Globals (Ok (ln :: lns)) g).
    cbn [for_each]. rewrite M_bind_run.
    destruct (loadSenseDataNewFormat_line_raises pos ln g) as [e ->].
    exists (Raise e). done.
  - exists (Raise IOError). done.
Qed.

Lemma loadSenseDataNewFormat_possible_preserves g :
  let g' := (except_IOError
               (psF ← gzip_open (possibleSensesFile files);
                for_each psF loadSenseDataNewFormat_possible_line) g).2 in
  senseTrie g' = senseTrie g ∧ senseCountMap g' = senseCountMap g.
Proof.
  cbv zeta.
  set (P := λ g' : Globals,
         senseTrie g' = senseTrie g ∧ senseCountMap g' = senseCountMap g).
  assert (P (((gzip_open (possibleSensesFile files)) ≫=
                (λ psF, for_each psF loadSenseDataNewFormat_possible_line)) g).2)
    as HP.
  { apply M_bind_preserves.
    - by destruct (possibleSensesFile files).
    - intros psF g1 Hg1. apply for_each_preserves; [|done].
      clear. intros ln g1 Hg1. unfold loadSenseDataNewFormat_possible_line.
      cbv zeta. apply M_bind_preserves; [done|].
      intros parts0 g2 Hg2. apply for_each_preserves; [|done].
      intros j g3 Hg3. apply M_bind_preserves; [done|].
      intros word g4 Hg4. apply M_bind_preserves; [done|].
      intros labels g5 Hg5. done. }
  unfold except_IOError.
  destruct ((gzip_open (possibleSensesFile files) ≫= _) g) as [[[]|[]|] g1];
    done.
Qed.

End NewFormat.

Lemma loadSenseDataNewFormat_outcome files g :
  ∃ r g',
    loadSenseDataNewFormat files g = (r, g') ∧
    senseTrie g' = senseTrie g ∧
    senseCountMap g' = senseCountMap g ∧
    (r = Ok tt → nounFile files = Some [] ∧ verbFile files = Some []).
Proof.
  unfold loadSenseDataNewFormat.
  rewrite M_bind_run. unfold get_globals at 1. cbv beta iota.
  rewrite M_bind_run. unfold assert_empty at 1, lift at 1.
  destruct (py_assert _) as [[]|e|]; cbv beta iota;
    [|by eexists _, _..].
  rewrite M_bind_run. unfold assert_empty at 1, lift at 1.
  destruct (py_assert _) as [[]|e|]; cbv beta iota;
    [|by eexists _, _..].
  rewrite M_bind_run. cbn [for_each]. rewrite M_bind_run.
  destruct (loadSenseDataNewFormat_file_outcome "N" (nounFile files) g)
    as (r1 & -> & Hr1).
  destruct r1 as [[]|e|]; [|by eexists _, _..]. rewrite M_bind_run.
  destruct (loadSenseDataNewFormat_file_outcome "V" (verbFile files) g)
    as (r2 & -> & Hr2).
  destruct r2 as [[]|e|]; [|by eexists _, _..].
  change (@mret M _ unit tt g) with (@pair (result unit) Globals (Ok tt) g).
  cbv beta iota.
  destruct (loadSenseDataNewFormat_possible_preserves files g) as [Ht Hc].
  destruct (except_IOError _ g) as [r g'] eqn:Hout. simpl in Ht, Hc.
  exists r, g'. split; [done|]. split; [done|]. split; [done|].
  intros _. split; [by apply Hr1|by apply Hr2].
Qed.

(** C2.  [loadSenseDataNewFormat] does not populate the tables.  From any
    state and for any files it leaves [senseTrie] and [senseCountMap] as
    they were, and it returns normally only when the noun and the verb
    file have no line.  On a one-line noun file the call raises
    [AttributeError] and all three tables stay empty, where
    [loadSenseDataOriginalFormat] on data in its own layout creates the
    trie and fills the count map and the possible-senses map. *)
Theorem loadSenseDataNewFormat_populates_nothing :
  (∀ files g,
     let out := loadSenseDataNewFormat files g in
     senseTrie out.2 = senseTrie g ∧
     senseCountMap out.2 = senseCountMap g ∧
     (out.1 = Ok tt → nounFile files = Some [] ∧ verbFile files = Some [])) ∧
  loadSenseDataNewFormat sample_new_files initial_globals
    = (Raise AttributeError, initial_globals) ∧
  (loadSenseDataOriginalFormat sample_old_files initial_globals
     = (Ok tt, sample_globals) ∧
   senseTrie sample_globals = Some sample_trie ∧
   Trie.get sample_trie ["bank"%string] None
     = Ok (Some {[ "N"%string := "noun.artifact"%string ]}) ∧
   senseCountMap sample_globals !! "N"%string
     = Some {[ ["bank"%string] := 2; ["new"%string; "york"%string] := 1 ]} ∧
   possibleSensesMap sample_globals !! "york"%string
     = Some {[ "I-noun.location"%string ]}).
Proof.
  split; [|split].
  - intros files g. cbv zeta.
    destruct (loadSenseDataNewFormat_outcome files g)
      as (r & g' & -> & Ht & Hc & Hr). done.
  - by vm_compute.
  - split_and!; by_evaluation.
Qed.

(** ** The most-frequent-sense baseline *)

Lemma py_index_0 {A} (x : A) l : py_index (x :: l) 0 = Ok x.
Proof.
  unfold py_index. cbn [Z.ltb Z.compare Z.leb andb].
  destruct (Z.ltb_spec 0 (Z.of_nat (length (x :: l)))); [done|].
  simpl in *. lia.
Qed.

Lemma py_index_last {A} (l : list A) :
  l ≠ [] → ∃ x, py_index l (-1) = Ok x.
Proof.
  intros Hl. unfold py_index. cbn [Z.ltb Z.compare].
  assert (0 < length l)%nat by (destruct l; [done|simpl; lia]).
  destruct (Z.leb_spec 0 (-1 + Z.of_nat (length l))); [|lia].
  destruct (Z.ltb_spec (-1 + Z.of_nat (length l)) (Z.of_nat (length l))); [|lia].
  cbn [andb].
  destruct (lookup_lt_is_Some_2 l (Z.to_nat (-1 + Z.of_nat (length l))))
    as [x ->]; [lia|]. eauto.
Qed.

Lemma py_slice_to_nonneg {A} (l : list A) n :
  0 ≤ n → py_slice_to l n = take (Z.to_nat n) l.
Proof. intros. unfold py_slice_to. destruct (Z.ltb_spec n 0); [lia|done]. Qed.

(** *** Label sequences *)

Lemma append_inside_replicate sense words : ∀ res i,
  append_inside sense words (res, i) =
    (res ++ replicate (length words) ("I-" +:+ sense)%string,
     (i + length words)%nat).
Proof.
  unfold append_inside.
  induction words as [|w words IH]; intros res i; simpl.
  - by rewrite app_nil_r, Nat.add_0_r.
  - rewrite IH. rewrite <- app_assoc. simpl. f_equal. lia.
Qed.

Lemma bio_label_O : bio_label "O".
Proof. by left. Qed.

Lemma bio_label_B sense : bio_label ("B-" +:+ sense).
Proof. right. exists sense. by left. Qed.

Lemma bio_label_I sense : bio_label ("I-" +:+ sense).
Proof. right. exists sense. by right. Qed.

Lemma inside_follows_nil : inside_follows [].
Proof. intros i sense Hi. by rewrite lookup_nil in Hi. Qed.

Lemma inside_follows_O res :
  inside_follows res → inside_follows (res ++ ["O"%string]).
Proof.
  intros Hres i sense Hi. apply lookup_snoc_Some in Hi as [[Hlt Hi]|[_ Hi]].
  - destruct (Hres i sense Hi) as (j & -> & Hj). exists j. split; [done|].
    rewrite !lookup_app_l by lia. done.
  - discriminate Hi.
Qed.

(** A [B-] label followed by [I-] labels of the same sense may follow
    any well-formed sequence. *)
Lemma inside_follows_span res sense n :
  inside_follows res →
  inside_follows
    ((res ++ [("B-" +:+ sense)%string]) ++ replicate n ("I-" +:+ sense)%string).
Proof.
  intros Hres i sense' Hi. rewrite <- app_assoc in *. simpl in *.
  destruct (decide (i < length res)%nat) as [Hlt|Hge].
  - rewrite lookup_app_l in Hi by done.
    destruct (Hres i sense' Hi) as (j & -> & Hj). exists j. split; [done|].
    rewrite !lookup_app_l by lia. done.
  - rewrite lookup_app_r in Hi by lia.
    destruct (i - length res)%nat as [|k] eqn:Hk; simpl in Hi.
    + discriminate Hi.
    + apply lookup_replicate in Hi as [Hi Hkn].
      assert (sense' = sense) as -> by (injection Hi; exact id).
      exists (length res + k)%nat. split; [lia|].
      rewrite lookup_app_r by lia.
      replace (length res + k - length res)%nat with k by lia.
      destruct k as [|k]; simpl; [by left|right].
      apply lookup_replicate_2. lia.
Qed.

Lemma first_chars_ok sent :
  Forall (λ tok, pos tok ≠ ""%string) sent →
  ∃ cs, first_chars sent = Ok cs ∧ length cs = length sent.
Proof.
  induction 1 as [|tok sent Htok _ (cs & Hcs & Hlen)]; [by exists []|].
  cbn [first_chars]. destruct (pos tok) as [|c p]; [done|].
  cbn [str_first]. rewrite result_bind_Ok, Hcs, result_bind_Ok.
  eexists. split; [done|]. simpl. by rewrite Hlen.
Qed.

Section Baseline.
Variable files : Files.
Variable useOldDataFormat : bool.
Variable g : Globals.
Variable trie : Trie.t string (gmap string string).
Hypothesis loaded : senseTrie g = Some trie.

(** With the lexicon loaded, one call of [getMostFrequentSensePrefix]
    reads the trie and leaves the state alone. *)
Lemma getMostFrequentSensePrefix_rec_loaded fuel stems coarse_poses :
  getMostFrequentSensePrefix_rec files useOldDataFormat (S fuel)
    stems coarse_poses g =
  match Trie.longest trie stems None with
  | Ok (Some (prefix, pos2sense)) =>
      match py_index coarse_poses 0 with
      | Ok first_pos =>
          match pos2sense !! first_pos with
          | Some sense => (Ok (Some (prefix, sense)), g)
          | None =>
              match py_index coarse_poses (-1) with
              | Ok last_pos =>
                  match pos2sense !! last_pos with
                  | Some sense => (Ok (Some (prefix, sense)), g)
                  | None =>
                      let n := Z.of_nat (length prefix) - 1 in
                      match py_slice_to stems n with
                      | _ :: _ =>
                          getMostFrequentSensePrefix_rec files useOldDataFormat
                            fuel (py_slice_to stems n)
                            (py_slice_to coarse_poses n) g
                      | [] => (Ok None, g)
                      end
                  end
              | Raise e => (Raise e, g)
              | OutOfFuel => (OutOfFuel, g)
              end
          end
      | Raise e => (Raise e, g)
      | OutOfFuel => (OutOfFuel, g)
      end
  | Ok None => (Ok None, g)
  | Raise e => (Raise e, g)
  | OutOfFuel => (OutOfFuel, g)
  end.
Proof.
  cbn [getMostFrequentSensePrefix_rec].
  rewrite M_bind_run. unfold get_globals at 1. cbv beta iota.
  rewrite bool_decide_false by (rewrite loaded; done).
  rewrite M_bind_run.
  change (@mret M _ unit tt g) with (@pair (result unit) Globals (Ok tt) g).
  cbv beta iota.
  rewrite M_bind_run. unfold get_globals at 1. cbv beta iota. rewrite loaded.
  rewrite M_bind_run. unfold lift at 1. cbv beta iota.
  destruct (Trie.longest trie stems None) as [[[prefix pos2sense]|]| |]; [|done..].
  rewrite M_bind_run. unfold lift at 1. cbv beta iota.
  destruct (py_index coarse_poses 0) as [first_pos| |]; [|done..].
  destruct (pos2sense !! first_pos); [done|].
  rewrite M_bind_run. unfold lift at 1. cbv beta iota.
  destruct (py_index coarse_poses (-1)) as [last_pos| |]; [|done..].
  destruct (pos2sense !! last_pos); [done|].
  cbv zeta. by destruct (py_slice_to stems _).
Qed.

(** The recursion ends: with the lexicon loaded and non-empty inputs,
    fuel equal to the number of stems is enough, more fuel changes
    nothing, and a returned prefix is a non-empty prefix of the stems. *)
Lemma getMostFrequentSensePrefix_rec_total n : ∀ stems coarse_poses,
  (length stems ≤ n)%nat → stems ≠ [] → coarse_poses ≠ [] →
  ∃ r,
    (∀ fuel, (length stems ≤ fuel)%nat →
       getMostFrequentSensePrefix_rec files useOldDataFormat fuel
         stems coarse_poses g = (Ok r, g)) ∧
    match r with
    | Some (prefix, _) => prefix ≠ [] ∧ prefix `prefix_of` stems
    | None => True
    end.
Proof.
  induction n as [|n IH]; intros stems coarse_poses Hn Hs Hc.
  { destruct stems; [done|]. simpl in Hn. lia. }
  assert (Hfuel : ∀ fuel, (length stems ≤ fuel)%nat → ∃ f, fuel = S f).
  { intros [|f] Hf; [|eauto]. destruct stems; [done|]. simpl in Hf. lia. }
  pose proof (Trie_longest_spec stems trie Hs) as Hspec.
  destruct (Trie.longest trie stems None)
    as [[[prefix pos2sense]|]| |] eqn:Hlong; [| |done..].
  2: { exists None. split; [|done]. intros fuel Hf.
       destruct (Hfuel _ Hf) as [f ->].
       by rewrite getMostFrequentSensePrefix_rec_loaded, Hlong. }
  destruct Hspec as (Hp0 & Hpre & _).
  destruct coarse_poses as [|c cs] eqn:Hcp; [done|]. rewrite <- Hcp in *.
  assert (py_index coarse_poses 0 = Ok c) as Hfirst.
  { rewrite Hcp. apply py_index_0. }
  destruct (pos2sense !! c) as [sense|] eqn:Hc1.
  { exists (Some (prefix, sense)). split; [|done]. intros fuel Hf.
    destruct (Hfuel _ Hf) as [f ->].
    by rewrite getMostFrequentSensePrefix_rec_loaded, Hlong, Hfirst, Hc1. }
  destruct (py_index_last coarse_poses Hc) as [last Hlast].
  destruct (pos2sense !! last) as [sense|] eqn:Hc2.
  { exists (Some (prefix, sense)). split; [|done]. intros fuel Hf.
    destruct (Hfuel _ Hf) as [f ->].
    by rewrite getMostFrequentSensePrefix_rec_loaded, Hlong, Hfirst, Hc1,
      Hlast, Hc2. }
  assert (0 < length prefix)%nat as Hplen.
  { destruct prefix; [done|]. simpl. lia. }
  pose proof (prefix_length _ _ Hpre) as Hple.
  set (m := Z.of_nat (length prefix) - 1).
  assert (py_slice_to stems m = take (length prefix - 1) stems) as Hst.
  { rewrite py_slice_to_nonneg by lia. f_equal. lia. }
  assert (py_slice_to coarse_poses m = take (length prefix - 1) coarse_poses)
    as Hct.
  { rewrite py_slice_to_nonneg by lia. f_equal. lia. }
  destruct (take (length prefix - 1) stems) as [|s0 stems'] eqn:Htake.
  { exists None. split; [|done]. intros fuel Hf.
    destruct (Hfuel _ Hf) as [f ->].
    rewrite getMostFrequentSensePrefix_rec_loaded, Hlong, Hfirst, Hc1,
      Hlast, Hc2. cbv zeta. fold m. by rewrite Hst. }
  assert (length (s0 :: stems') ≤ length prefix - 1)%nat as Hlen'.
  { rewrite <- Htake, length_take. lia. }
  destruct (IH (s0 :: stems') (take (length prefix - 1) coarse_poses))
    as (r & Hr & Hprefix).
  - lia.
  - done.
  - rewrite Hcp. simpl in Hlen'.
    destruct (length prefix - 1)%nat; [lia|done].
  - exists r. split.
    + intros fuel Hf. destruct (Hfuel _ Hf) as [f ->].
      rewrite getMostFrequentSensePrefix_rec_loaded, Hlong, Hfirst, Hc1,
        Hlast, Hc2. cbv zeta. fold m. rewrite Hst, Hct. apply Hr. lia.
    + destruct r as [[p ?]|]; [|done]. destruct Hprefix as [? Hp].
      split; [done|]. etrans; [exact Hp|]. rewrite <- Htake. apply prefix_take.
Qed.

(** With the lexicon loaded: the result, and the recursive step when
    neither the first nor the last coarse POS is in the entry found. *)
Lemma getMostFrequentSensePrefix_loaded stems coarse_poses :
  stems ≠ [] → coarse_poses ≠ [] →
  (∃ r,
     (∀ fuel, (length stems ≤ fuel)%nat →
        getMostFrequentSensePrefix_rec files useOldDataFormat fuel
          stems coarse_poses g = (Ok r, g)) ∧
     getMostFrequentSensePrefix files useOldDataFormat stems coarse_poses g
       = (Ok r, g)) ∧
  (∀ prefix pos2sense first_pos last_pos,
     Trie.longest trie stems None = Ok (Some (prefix, pos2sense)) →
     py_index coarse_poses 0 = Ok first_pos →
     pos2sense !! first_pos = None →
     py_index coarse_poses (-1) = Ok last_pos →
     pos2sense !! last_pos = None →
     let stems' := take (length prefix - 1) stems in
     let coarse_poses' := take (length prefix - 1) coarse_poses in
     (length stems' < length stems)%nat ∧
     ∀ fuel,
       getMostFrequentSensePrefix_rec files useOldDataFormat (S fuel)
         stems coarse_poses g =
       match stems' with
       | [] => (Ok None, g)
       | _ :: _ =>
           getMostFrequentSensePrefix_rec files useOldDataFormat fuel
             stems' coarse_poses' g
       end).
Proof.
  intros Hs Hc. split.
  - destruct (getMostFrequentSensePrefix_rec_total (length stems) stems
                coarse_poses) as (r & Hr & _); [done..|].
    exists r. split; [done|]. apply Hr. lia.
  - intros prefix pos2sense first_pos last_pos Hlong Hfirst Hc1 Hlast Hc2
      stems' coarse_poses'.
    pose proof (Trie_longest_spec stems trie Hs) as Hspec.
    rewrite Hlong in Hspec. destruct Hspec as (Hp0 & Hpre & _).
    assert (0 < length prefix)%nat as Hplen.
    { destruct prefix; [done|]. simpl. lia. }
    pose proof (prefix_length _ _ Hpre) as Hple.
    split.
    + unfold stems'. rewrite length_take. lia.
    + intros fuel.
      rewrite getMostFrequentSensePrefix_rec_loaded, Hlong, Hfirst, Hc1,
        Hlast, Hc2. cbv zeta.
      rewrite !py_slice_to_nonneg by lia.
      replace (Z.to_nat (Z.of_nat (length prefix) - 1))
        with (length prefix - 1)%nat by lia.
      done.
Qed.

(** The loop of [extractFirstSensePredictedLabels]: from position [i]
    with [i] well-formed labels written, it ends with one label for each
    token. *)
Lemma extractFirstSensePredictedLabels_loop_ok sent stems coarse_poses :
  length stems = length sent → length coarse_poses = length sent →
  ∀ fuel i res,
    (i ≤ length sent)%nat → (length sent - i ≤ fuel)%nat →
    length res = i → Forall bio_label res → inside_follows res →
    ∃ res',
      extractFirstSensePredictedLabels_loop files useOldDataFormat fuel
        sent stems coarse_poses i res g = (Ok res', g) ∧
      length res' = length sent ∧ Forall bio_label res' ∧ inside_follows res'.
Proof.
  intros Hstems Hposes.
  induction fuel as [|fuel IH]; intros i res Hi Hfuel Hlen Hbio Hin.
  - assert (i = length sent) as -> by lia. cbn.
    rewrite bool_decide_false by lia. by exists res.
  - cbn [extractFirstSensePredictedLabels_loop]. case_bool_decide as Hlt.
    2: { assert (i = length sent) as -> by lia. by exists res. }
    rewrite M_bind_run.
    destruct (getMostFrequentSensePrefix_rec_total
                (length (drop i stems)) (drop i stems) (drop i coarse_poses))
      as (r & Hr & Hprefix); [done|..].
    { intros Hnil. apply (f_equal length) in Hnil.
      rewrite length_drop in Hnil. simpl in Hnil. lia. }
    { intros Hnil. apply (f_equal length) in Hnil.
      rewrite length_drop in Hnil. simpl in Hnil. lia. }
    unfold getMostFrequentSensePrefix. rewrite Hr by lia.
    destruct r as [[wordParts sense]|].
    + destruct Hprefix as [Hwp Hpre]. apply prefix_length in Hpre.
      rewrite length_drop in Hpre.
      rewrite append_inside_replicate.
      assert (length (tail wordParts) = length wordParts - 1)%nat as Htl.
      { destruct wordParts; [done|]. simpl. lia. }
      assert (0 < length wordParts)%nat by (destruct wordParts; [done|simpl; lia]).
      apply IH.
      * lia.
      * lia.
      * rewrite !length_app, length_replicate. simpl. lia.
      * rewrite !Forall_app. split_and!; [done| |].
        -- constructor; [apply bio_label_B|constructor].
        -- apply Forall_replicate. apply bio_label_I.
      * by apply inside_follows_span.
    + apply IH.
      * lia.
      * lia.
      * rewrite length_app. simpl. lia.
      * rewrite Forall_app. split; [done|].
        constructor; [apply bio_label_O|constructor].
      * by apply inside_follows_O.
Qed.

End Baseline.

(** Without a trie, the call first loads the lexicon in the original
    format and then goes on as a call on the loaded state. *)
Lemma getMostFrequentSensePrefix_rec_unloaded files useOldDataFormat g fuel
    stems coarse_poses :
  senseTrie g = None →
  getMostFrequentSensePrefix_rec files useOldDataFormat (S fuel)
    stems coarse_poses g =
  match (lift (py_assert useOldDataFormat) ;;
         loadSenseDataOriginalFormat files) g with
  | (Ok _, g') =>
      getMostFrequentSensePrefix_rec files useOldDataFormat (S fuel)
        stems coarse_poses g'
  | (Raise e, g') => (Raise e, g')
  | (OutOfFuel, g') => (OutOfFuel, g')
  end.
Proof.
  intros Hg. cbn [getMostFrequentSensePrefix_rec].
  rewrite M_bind_run. unfold get_globals at 1. cbv beta iota.
  rewrite bool_decide_true by done.
  lazymatch goal with
  | |- (_ ≫= (λ _, ?k)) g = _ => set (rest := k)
  end.
  rewrite M_bind_run.
  destruct ((lift (py_assert useOldDataFormat) ;;
             loadSenseDataOriginalFormat files) g) as [[[]|e|] g'] eqn:Hload;
    [|done..].
  assert (is_Some (senseTrie g')) as [trie' Hg'].
  { rewrite M_bind_run in Hload. unfold lift at 1 in Hload.
    destruct useOldDataFormat; [|done]. cbn [py_assert] in Hload.
    cbv beta iota in Hload.
    pose proof (loadSenseDataOriginalFormat_creates_trie files g Hg) as Hc.
    by rewrite Hload in Hc. }
  rewrite M_bind_run. unfold get_globals at 1. cbv beta iota.
  rewrite bool_decide_false by (by rewrite Hg').
  rewrite M_bind_run.
  change (@mret M _ unit tt g') with (@pair (result unit) Globals (Ok tt) g').
  done.
Qed.

(** C5.  [getMostFrequentSensePrefix] ends on non-empty stems and coarse
    POS tags, from any state: there is one outcome, a result or an
    exception, that every recursion budget of at least [len(stems)] calls
    produces, and it is the outcome of the function.  With the lexicon
    loaded the outcome is a result and the state is as before; when
    neither the first nor the last coarse POS is in the entry found, the
    call is the call on the inputs cut to [len(prefix) - 1] items, which
    are fewer than before, and it is "no match" ([None]) when that many
    stems are none. *)
Theorem getMostFrequentSensePrefix_terminates files useOldDataFormat g
    stems coarse_poses :
  stems ≠ [] → coarse_poses ≠ [] →
  (∃ out,
     out.1 ≠ OutOfFuel ∧
     (∀ fuel, (length stems ≤ fuel)%nat →
        getMostFrequentSensePrefix_rec files useOldDataFormat fuel
          stems coarse_poses g = out) ∧
     getMostFrequentSensePrefix files useOldDataFormat stems coarse_poses g
       = out) ∧
  (∀ trie, senseTrie g = Some trie →
     (∃ r, getMostFrequentSensePrefix files useOldDataFormat stems
             coarse_poses g = (Ok r, g)) ∧
     ∀ prefix pos2sense first_pos last_pos,
       Trie.longest trie stems None = Ok (Some (prefix, pos2sense)) →
       py_index coarse_poses 0 = Ok first_pos →
       pos2sense !! first_pos = None →
       py_index coarse_poses (-1) = Ok last_pos →
       pos2sense !! last_pos = None →
       let stems' := take (length prefix - 1) stems in
       let coarse_poses' := take (length prefix - 1) coarse_poses in
       (length stems' < length stems)%nat ∧
       ∀ fuel,
         getMostFrequentSensePrefix_rec files useOldDataFormat (S fuel)
           stems coarse_poses g =
         match stems' with
         | [] => (Ok None, g)
         | _ :: _ =>
             getMostFrequentSensePrefix_rec files useOldDataFormat fuel
               stems' coarse_poses' g
         end).
Proof.
  intros Hs Hc. split.
  - assert (∀ g1 trie1, senseTrie g1 = Some trie1 →
              ∃ r, ∀ fuel, (length stems ≤ fuel)%nat →
                getMostFrequentSensePrefix_rec files useOldDataFormat fuel
                  stems coarse_poses g1 = (Ok r, g1)) as Hloaded.
    { intros g1 trie1 Hg1.
      destruct (getMostFrequentSensePrefix_rec_total files useOldDataFormat
                  g1 trie1 Hg1 (length stems) stems coarse_poses)
        as (r & Hr & _); [done..|]. by exists r. }
    assert (∃ out, out.1 ≠ OutOfFuel ∧
              ∀ fuel, (length stems ≤ fuel)%nat →
                getMostFrequentSensePrefix_rec files useOldDataFormat fuel
                  stems coarse_poses g = out) as (out & Hout & Hrec).
    { destruct (senseTrie g) as [trie|] eqn:Hg.
      { destruct (Hloaded g trie Hg) as [r Hr]. by exists (Ok r, g). }
      assert (fuel_free (lift (py_assert useOldDataFormat) ;;
                         loadSenseDataOriginalFormat files)) as Hfree.
      { apply fuel_free_bind; [apply fuel_free_lift, py_assert_fuel_free|].
        intros _. apply loadSenseDataOriginalFormat_fuel_free. }
      specialize (Hfree g).
      pose proof (getMostFrequentSensePrefix_rec_unloaded files
                    useOldDataFormat g) as Hun.
      destruct ((lift (py_assert useOldDataFormat) ;;
                 loadSenseDataOriginalFormat files) g) as [[[]|e|] g'] eqn:Hload;
        [| |done].
      - assert (is_Some (senseTrie g')) as [trie' Hg'].
        { rewrite M_bind_run in Hload. unfold lift at 1 in Hload.
          destruct useOldDataFormat; [|done]. cbn [py_assert] in Hload.
          cbv beta iota in Hload.
          pose proof (loadSenseDataOriginalFormat_creates_trie files g Hg) as Hc'.
          by rewrite Hload in Hc'. }
        destruct (Hloaded g' trie' Hg') as [r Hr]. exists (Ok r, g').
        split; [done|]. intros [|fuel] Hfuel.
        { destruct stems; [done|]. simpl in Hfuel. lia. }
        rewrite Hun by done. by apply Hr.
      - exists (Raise e, g'). split; [done|]. intros [|fuel] Hfuel.
        { destruct stems; [done|]. simpl in Hfuel. lia. }
        by rewrite Hun. }
    exists out. split; [done|]. split; [done|]. apply Hrec. lia.
  - intros trie Hg.
    destruct (getMostFrequentSensePrefix_loaded files useOldDataFormat g trie
                Hg stems coarse_poses Hs Hc) as [(r & _ & Hr) Hstep].
    split; [by exists r|exact Hstep].
Qed.

Lemma getMostFrequentSensePrefix_terminates_witness :
  (∃ out,
     out.1 ≠ OutOfFuel ∧
     (∀ fuel, (2 ≤ fuel)%nat →
        getMostFrequentSensePrefix_rec sample_old_files true fuel
          ["new"; "york"]%string ["J"; "V"]%string sample_globals = out) ∧
     getMostFrequentSensePrefix sample_old_files true
       ["new"; "york"]%string ["J"; "V"]%string sample_globals = out) ∧
  (∃ r, getMostFrequentSensePrefix sample_old_files true
          ["new"; "york"]%string ["J"; "V"]%string sample_globals
        = (Ok r, sample_globals)) ∧
  (length ["new"]%string < length ["new"; "york"]%string)%nat ∧
  (∀ fuel,
     getMostFrequentSensePrefix_rec sample_old_files true (S fuel)
       ["new"; "york"]%string ["J"; "V"]%string sample_globals =
     getMostFrequentSensePrefix_rec sample_old_files true fuel
       ["new"]%string ["J"]%string sample_globals).
Proof.
  destruct (getMostFrequentSensePrefix_terminates sample_old_files true
              sample_globals ["new"; "york"]%string ["J"; "V"]%string)
    as [Hends Hloaded]; [done..|].
  destruct (Hloaded sample_trie eq_refl) as [Hresult Hstep].
  destruct (Hstep ["new"; "york"]%string
              ({["N"%string := "noun.location"%string]} : gmap string string)
              "J"%string "V"%string) as [Hshorter Hcall].
  - by_evaluation.
  - reflexivity.
  - by_evaluation.
  - reflexivity.
  - by_evaluation.
  - split_and!; [exact Hends|exact Hresult|exact Hshorter|exact Hcall].
Defined.

(** C4.  Let the lexicon be loaded, or let the first use load it in the
    original format, and let every token carry a POS tag.  Then
    [extractFirstSensePredictedLabels] returns a list with exactly one
    label for each token; each label is [O] or a sense behind [B-] or
    [I-]; and each [I-] label comes right after a [B-] or [I-] label with
    the same sense. *)
Theorem extractFirstSensePredictedLabels_labels files useOldDataFormat g g'
    sent :
  lexicon_ready files useOldDataFormat g g' →
  Forall (λ tok, pos tok ≠ ""%string) sent →
  ∃ res,
    extractFirstSensePredictedLabels files useOldDataFormat sent g
      = (Ok res, g') ∧
    length res = length sent ∧ Forall bio_label res ∧ inside_follows res.
Proof.
  intros Hready Hpos.
  destruct (first_chars_ok sent Hpos) as (cs & Hcs & Hlen).
  assert (∃ trie', senseTrie g' = Some trie' ∧
            extractFirstSensePredictedLabels files useOldDataFormat sent g =
            extractFirstSensePredictedLabels_loop files useOldDataFormat
              (length sent) sent (stem <$> sent) cs 0%nat [] g')
    as (trie' & Hg' & ->).
  { unfold extractFirstSensePredictedLabels.
    rewrite M_bind_run. unfold get_globals at 1. cbv beta iota.
    destruct Hready as [[[trie Hg] ->]|(Hg & -> & Hload)].
    - exists trie. split; [done|].
      rewrite bool_decide_false by (by rewrite Hg).
      rewrite M_bind_run.
      change (@mret M _ unit tt g) with (@pair (result unit) Globals (Ok tt) g).
      cbv beta iota zeta. rewrite M_bind_run, Hcs. by unfold lift at 1.
    - pose proof (loadSenseDataOriginalFormat_creates_trie files g Hg) as Hc.
      rewrite Hload in Hc. destruct Hc as [trie' Hg']. exists trie'.
      split; [done|]. rewrite bool_decide_true by done.
      rewrite M_bind_run, Hload. cbv beta iota zeta.
      rewrite M_bind_run, Hcs. by unfold lift at 1. }
  apply (extractFirstSensePredictedLabels_loop_ok files useOldDataFormat g'
           trie' Hg').
  - by rewrite length_fmap.
  - done.
  - lia.
  - lia.
  - done.
  - constructor.
  - apply inside_follows_nil.
Qed.

Lemma extractFirstSensePredictedLabels_labels_witness :
  ∃ res,
    extractFirstSensePredictedLabels sample_old_files true sample_sentence
      initial_globals = (Ok res, sample_globals) ∧
    length res = 5%nat.
Proof.
  destruct (extractFirstSensePredictedLabels_labels sample_old_files true
              initial_globals sample_globals sample_sentence)
    as (res & Hres & Hlen & _).
  - right. split; [reflexivity|]. split; [reflexivity|]. by_evaluation.
  - repeat constructor; done.
  - by exists res.
Defined.

